(** * ScrapingBee CLI: the batch engine and the usage parser

    A shallow embedding of [src/scrapingbee_cli/batch.py] and of
    [parse_usage] from [src/scrapingbee_cli/client.py], with the properties
    the specification states about them.

    Conventions of the embedding:
    - a Python [str] is the list of its code points ([pystr]); [bytes] is a
      list of [Byte.byte];
    - a Python [int] is a [Z]; a Python [float] is a [spec_float] of the
      Standard Library (binary64: [prec = 53], [emax = 1024]);
    - a [dict] is a [gmap]; a list updated by index uses stdpp's insert;
    - a function that may raise returns a [result]. *)

From Stdlib Require Import ZArith List Ascii String Floats.SpecFloat.
From stdpp Require Import gmap strings list fin_maps pretty.

Set Warnings "-register-all".
Local Open Scope Z_scope.

(** ** Python values shared by the modules *)

Abbreviation pystr := (list N).
Abbreviation bytes := (list Byte.byte).

(** A string literal of the source, as code points. *)
Definition str (s : string) : pystr :=
  (λ a, N_of_ascii a) <$> list_ascii_of_string s.

(** [f"{n}"] for an [int]: decimal digits, [-] in front of a negative. *)
Definition fmt_int (n : Z) : pystr := str (pretty n).

(** Exceptions.  An exception raised by a library call is identified by its
    class; a [ValueError] carries the text it was built with. *)
Inductive exn :=
  | ValueError (msg : pystr)
  | JSONDecodeError
  | UnicodeDecodeError
  | RecursionError
  | AttributeError
  | TypeError
  | IndexError
  | OverflowError
  | FileNotFoundError
  | FileExistsError
  | NotADirectoryError
  | IsADirectoryError.

Inductive result (A : Type) :=
  | Returns (a : A)
  | Raises (e : exn).
Arguments Returns {A} a.
Arguments Raises {A} e.

(** Sequencing: the first exception raised ends the computation. *)
Definition bind {A B} (r : result A) (k : A → result B) : result B :=
  match r with
  | Returns a => k a
  | Raises e => Raises e
  end.

Notation "'let*' x := r 'in' k" := (bind r (λ x, k))
  (at level 10, x name, r at level 100, k at level 200).

Definition raises {A} (r : result A) : Prop := ∃ e, r = Raises e.

(** [x or y] on integers: [x] unless it is falsy, that is [0]. *)
Definition int_or (x y : Z) : Z := if decide (x = 0) then y else x.

(** [l[i] = x]: a negative index counts from the end, an index out of range
    raises [IndexError]. *)
Definition list_setitem {A} (l : list A) (i : Z) (x : A) : result (list A) :=
  let n := Z.of_nat (length l) in
  let j := if decide (i < 0) then i + n else i in
  if decide (0 ≤ j < n) then Returns (<[Z.to_nat j := x]> l)
  else Raises IndexError.

(** An exception object held as a value: its class name and its [str()]. *)
Record Exception := { exc_class : pystr; exc_str : pystr }.

(** ** Text: decoding, whitespace, lines *)

Module Text.

Local Open Scope N_scope.

(** A continuation byte [10xxxxxx] and its six bits. *)
Definition cont (b : N) : option N :=
  if (0x80 <=? b) && (b <=? 0xBF) then Some (b - 0x80) else None.

(** Is [cp] a code point a sequence of [len] bytes may encode?  Overlong
    forms and values above [U+10FFFF] are refused; a surrogate is accepted
    only under the [surrogatepass] error handler. *)
Definition scalar_ok (surrogatepass : bool) (len cp : N) : bool :=
  match len with
  | 2 => 0x80 <=? cp
  | 3 => (0x800 <=? cp)
         && (surrogatepass || negb ((0xD800 <=? cp) && (cp <=? 0xDFFF)))
  | _ => (0x10000 <=? cp) && (cp <=? 0x10FFFF)
  end.

(** [bytes.decode("utf-8")]: [None] stands for [UnicodeDecodeError]. *)
Fixpoint utf8_decode (surrogatepass : bool) (bs : list N) : option (list N) :=
  match bs with
  | [] => Some []
  | b :: bs1 =>
      if b <? 0x80 then cons b <$> utf8_decode surrogatepass bs1
      else if (0xC0 <=? b) && (b <=? 0xDF) then
        match bs1 with
        | c1 :: bs2 =>
            match cont c1 with
            | Some x1 =>
                let cp := (b - 0xC0) * 64 + x1 in
                if scalar_ok surrogatepass 2 cp
                then cons cp <$> utf8_decode surrogatepass bs2
                else None
            | None => None
            end
        | _ => None
        end
      else if (0xE0 <=? b) && (b <=? 0xEF) then
        match bs1 with
        | c1 :: c2 :: bs3 =>
            match cont c1, cont c2 with
            | Some x1, Some x2 =>
                let cp := ((b - 0xE0) * 64 + x1) * 64 + x2 in
                if scalar_ok surrogatepass 3 cp
                then cons cp <$> utf8_decode surrogatepass bs3
                else None
            | _, _ => None
            end
        | _ => None
        end
      else if (0xF0 <=? b) && (b <=? 0xF7) then
        match bs1 with
        | c1 :: c2 :: c3 :: bs4 =>
            match cont c1, cont c2, cont c3 with
            | Some x1, Some x2, Some x3 =>
                let cp := (((b - 0xF0) * 64 + x1) * 64 + x2) * 64 + x3 in
                if scalar_ok surrogatepass 4 cp
                then cons cp <$> utf8_decode surrogatepass bs4
                else None
            | _, _, _ => None
            end
        | _ => None
        end
      else None
  end.

Definition bytes_to_N (b : bytes) : list N := Byte.to_N <$> b.

(** [str.isspace] for one code point, which is what [str.strip()] removes. *)
Definition isspace (c : N) : bool :=
  ((0x09 <=? c) && (c <=? 0x0D)) || ((0x1C <=? c) && (c <=? 0x20))
  || (c =? 0x85) || (c =? 0xA0) || (c =? 0x1680)
  || ((0x2000 <=? c) && (c <=? 0x200A))
  || (c =? 0x2028) || (c =? 0x2029) || (c =? 0x202F) || (c =? 0x205F)
  || (c =? 0x3000).

Fixpoint lstrip (s : pystr) : pystr :=
  match s with
  | c :: rest => if isspace c then lstrip rest else s
  | [] => []
  end.

Definition rstrip (s : pystr) : pystr := reverse (lstrip (reverse s)).

(** [s.strip()]. *)
Definition strip (s : pystr) : pystr := rstrip (lstrip s).

(** Universal newlines of a file opened in text mode: [\r\n] and a lone
    [\r] are read as [\n]. *)
Fixpoint translate_newlines (s : pystr) : pystr :=
  match s with
  | [] => []
  | c :: rest =>
      if c =? 13 then
        match rest with
        | c2 :: rest' =>
            if c2 =? 10 then 10 :: translate_newlines rest'
            else 10 :: translate_newlines rest
        | [] => [10]
        end
      else c :: translate_newlines rest
  end.

(** The lines iterating over the file yields: each ends with its [\n],
    except a last line the file does not terminate. *)
Fixpoint lines_from (cur : pystr) (s : pystr) : list pystr :=
  match s with
  | [] => match cur with [] => [] | _ => [cur] end
  | c :: rest =>
      if c =? 10 then (cur ++ [c]) :: lines_from [] rest
      else lines_from (cur ++ [c]) rest
  end.

Definition file_lines (text : pystr) : list pystr :=
  lines_from [] (translate_newlines text).

End Text.

(** ** The file system and the error stream

    A path is the list of the components of an absolute path, the root being
    [[]].  There are no symbolic links and no permissions: a call fails only
    for the kind of node it finds. *)

Module Os.

Abbreviation path := (list (list N)).

Inductive node :=
  | File (content : bytes)
  | Dir.

Record world := {
  fs : gmap (list (list N)) node;
  stderr : list pystr
}.

Definition is_dir (m : gmap (list (list N)) node) (p : path) : bool :=
  match p with
  | [] => true
  | _ => match m !! p with Some Dir => true | _ => false end
  end.

(** [os.makedirs(base/todo, exist_ok=True)], [base] being known to exist:
    every missing directory on the way is created, a directory that exists
    is accepted, a regular file in the way is an error. *)
Fixpoint makedirs_from (base : path) (todo : list pystr)
    (m : gmap (list (list N)) node) : result (gmap (list (list N)) node) :=
  match todo with
  | [] => Returns m
  | c :: rest =>
      let p := base ++ [c] in
      match m !! p with
      | Some Dir => makedirs_from p rest m
      | Some (File _) =>
          Raises (match rest with [] => FileExistsError | _ => NotADirectoryError end)
      | None => makedirs_from p rest (<[p := Dir]> m)
      end
  end.

(** The directories [makedirs_from base todo] is to find or create. *)
Definition on_way (base : path) (todo : list pystr) (q : path) : Prop :=
  ∃ k, (0 < k ≤ length todo)%nat ∧ q = base ++ take k todo.

Definition makedirs (p : path) (w : world) : result world :=
  let* m := makedirs_from [] p (fs w) in
  Returns {| fs := m; stderr := stderr w |}.

(** [with open(os.path.join(dir, name), "wb") as f: f.write(data)]: the file
    is created or truncated and holds [data] afterwards. *)
Definition write_file (dir : path) (name : pystr) (data : bytes) (w : world)
    : result world :=
  if is_dir (fs w) dir then
    match fs w !! (dir ++ [name]) with
    | Some Dir => Raises IsADirectoryError
    | _ => Returns {| fs := <[dir ++ [name] := File data]> (fs w);
                      stderr := stderr w |}
    end
  else
    Raises (match fs w !! dir with
            | Some (File _) => NotADirectoryError
            | _ => FileNotFoundError
            end).

(** [open(p, encoding="utf-8")] read to the end: the decoded text. *)
Definition read_text (p : path) (w : world) : result pystr :=
  match p with
  | [] => Raises IsADirectoryError
  | _ =>
      match fs w !! p with
      | None => Raises FileNotFoundError
      | Some Dir => Raises IsADirectoryError
      | Some (File content) =>
          match Text.utf8_decode false (Text.bytes_to_N content) with
          | Some text => Returns text
          | None => Raises UnicodeDecodeError
          end
      end
  end.

(** [print(line, file=sys.stderr)]. *)
Definition print_stderr (line : pystr) (w : world) : world :=
  {| fs := fs w; stderr := stderr w ++ [line] |}.

End Os.

(** ** batch.py: the usage dictionary and the pre-flight checks *)

Module Batch.

(** [usage.get(key, default)] on the [dict] returned by [parse_usage]. *)
Definition usage_get (usage : gmap (list N) Z) (key : string) (dflt : Z) : Z :=
  default dflt (usage !! str key).

(** The dictionary [{"max_concurrency": mc, "credits": cr}]. *)
Definition usage_info (mc cr : Z) : gmap (list N) Z :=
  <[str "credits" := cr]> (<[str "max_concurrency" := mc]> ∅).

Definition plan_limit_msg (user_concurrency max_concurrency : Z) : pystr :=
  str "concurrency " ++ fmt_int user_concurrency
    ++ str " exceeds your plan limit of " ++ fmt_int max_concurrency
    ++ str " (check with: scrapingbee usage)".

Definition credits_msg (num_inputs credits : Z) : pystr :=
  str "not enough credits: " ++ fmt_int num_inputs
    ++ str " requested, " ++ fmt_int credits
    ++ str " available (check with: scrapingbee usage)".

Definition validate_batch_run
    (user_concurrency num_inputs : Z) (usage : gmap (list N) Z) : result unit :=
  let max_concurrency := usage_get usage "max_concurrency" 5 in
  if decide (user_concurrency > 0 ∧ user_concurrency > max_concurrency) then
    Raises (ValueError (plan_limit_msg user_concurrency max_concurrency))
  else
    let credits := usage_get usage "credits" 0 in
    if decide (credits > 0 ∧ num_inputs > credits) then
      Raises (ValueError (credits_msg num_inputs credits))
    else Returns tt.

Definition resolve_batch_concurrency
    (user_concurrency : Z) (usage : gmap (list N) Z) (_num_inputs : Z) : Z :=
  if decide (user_concurrency > 0) then user_concurrency
  else usage_get usage "max_concurrency" 5.

(** *** The batch executor *)

Record BatchResult := {
  index : Z;
  input : pystr;
  body : bytes;
  status_code : Z;
  error : option Exception
}.

(** The type of the worker: [Callable[[str], tuple[bytes, int, Exception | None]]].
    The worker answers every input with a triple and never raises; its
    answer for an input is what the call made for that input returns. *)
Definition worker := pystr → bytes * Z * option Exception.

(** [concurrent.futures.ThreadPoolExecutor(max_workers=n)]: the constructor
    rejects a pool size that is not positive. *)
Record pool := { max_workers : Z }.

Definition ThreadPoolExecutor (n : Z) : result pool :=
  if decide (n ≤ 0) then
    Raises (ValueError (str "max_workers must be greater than 0"))
  else Returns {| max_workers := n |}.

(** [min(concurrency or 1, len(inputs))], the size the pool is built with. *)
Definition effective_concurrency (concurrency : Z) (inputs : list pystr) : Z :=
  Z.min (int_or concurrency 1) (Z.of_nat (length inputs)).

(** The inner function [do_one] of [run_batch]. *)
Definition do_one (fn : worker) (i : Z) (inp : pystr) : Z * BatchResult :=
  let '(body, status_code, err) := fn inp in
  (i, {| index := i; input := inp; body := body;
         status_code := status_code; error := err |}).

(** The futures, in the order [enumerate(inputs)] submits them; a future is
    represented by the value its [result()] returns. *)
Definition submit_all (fn : worker) (inputs : list pystr) : list (Z * BatchResult) :=
  imap (λ i inp, do_one fn (Z.of_nat i) inp) inputs.

(** [as_completed(futures)] yields every future once, in an order the
    library does not fix: [order] lists the positions of the futures in the
    order they are yielded. *)
Definition as_completed {A} (futures : list A) (order : list nat) : list A :=
  omap (λ k, futures !! k) order.

Definition schedule (inputs : list pystr) (order : list nat) : Prop :=
  order ≡ₚ seq 0 (length inputs).

(** The loop [for future in as_completed(futures)]. *)
Fixpoint collect (yielded : list (Z * BatchResult))
    (results : list (option BatchResult)) : result (list (option BatchResult)) :=
  match yielded with
  | [] => Returns results
  | (_i, r) :: rest =>
      let* results := list_setitem results (index r) (Some r) in
      collect rest results
  end.

Definition run_batch (order : list nat)
    (inputs : list pystr) (concurrency : Z) (fn : worker) : result (list BatchResult) :=
  let concurrency := effective_concurrency concurrency inputs in
  let results := replicate (length inputs) None in
  let* executor := ThreadPoolExecutor concurrency in
  let futures := submit_all fn inputs in
  let* results := collect (as_completed futures order) results in
  Returns (omap id results).

(** The record the executor is to produce for the input at position [k]. *)
Definition expected_result (fn : worker) (k : nat) (inp : pystr) : BatchResult :=
  {| index := Z.of_nat k; input := inp; body := (fn inp).1.1;
     status_code := (fn inp).1.2; error := (fn inp).2 |}.

(** *** The input loader and the result writer *)

Section Files.
Import Os.

(** The absolute path a path string denotes ([Path(output_dir).resolve()],
    and what [open] does with a relative path), fixed by the working
    directory of the process; and [repr] of a string. *)
Variable resolve : pystr → path.
Variable repr : pystr → pystr.

Definition no_lines_msg (path : pystr) : pystr :=
  str "input file " ++ [34%N] ++ path ++ [34%N] ++ str " has no non-empty lines".

(** [[line.strip() for line in f if line.strip()]]. *)
Fixpoint stripped_lines (f : list pystr) : list pystr :=
  match f with
  | [] => []
  | line :: f =>
      match Text.strip line with
      | [] => stripped_lines f
      | _ => Text.strip line :: stripped_lines f
      end
  end.

Definition read_input_file (path : pystr) (w : world) : result (list pystr) :=
  let* text := read_text (resolve path) w in
  let lines := stripped_lines (Text.file_lines text) in
  match lines with
  | [] => Raises (ValueError (no_lines_msg path))
  | _ => Returns lines
  end.

(** [default_batch_output_dir()]; [now] is
    [datetime.now().strftime("%Y%m%d_%H%M%S")]. *)
Definition default_batch_output_dir (now : pystr) : pystr :=
  str "batch_" ++ now.

Definition item_error_line (n : Z) (r : BatchResult) (e : Exception) : pystr :=
  str "Item " ++ fmt_int n ++ str " (" ++ repr (input r) ++ str "): " ++ exc_str e.

Definition item_status_line (n : Z) (r : BatchResult) : pystr :=
  str "Item " ++ fmt_int n ++ str ": HTTP " ++ fmt_int (status_code r).

(** The body of the loop [for r in results]. *)
Definition write_one (abs_dir : path) (verbose : bool) (r : BatchResult)
    (w : world) : result world :=
  let n := index r + 1 in
  match error r with
  | Some e =>
      let w := print_stderr (item_error_line n r e) w in
      match body r with
      | _ :: _ => write_file abs_dir (fmt_int n ++ str ".err") (body r) w
      | [] => Returns w
      end
  | None =>
      let w := if verbose then print_stderr (item_status_line n r) w else w in
      write_file abs_dir (fmt_int n ++ str ".txt") (body r) w
  end.

Fixpoint write_all (abs_dir : path) (verbose : bool) (results : list BatchResult)
    (w : world) : result world :=
  match results with
  | [] => Returns w
  | r :: rest =>
      let* w := write_one abs_dir verbose r w in
      write_all abs_dir verbose rest w
  end.

(** [output_dir or default_batch_output_dir()]: [None] and the empty string
    are falsy. *)
Definition output_dir_or_default (output_dir : option pystr) (now : pystr) : pystr :=
  match output_dir with
  | Some (c :: d) => c :: d
  | _ => default_batch_output_dir now
  end.

Definition write_batch_output_to_dir (now : pystr)
    (results : list BatchResult) (output_dir : option pystr) (verbose : bool)
    (w : world) : result (path * world) :=
  let output_dir := output_dir_or_default output_dir now in
  let abs_dir := resolve output_dir in
  let* w := makedirs abs_dir w in
  let* w := write_all abs_dir verbose results w in
  Returns (abs_dir, w).

End Files.

(** What the loader is to return: the lines of the file, trimmed, those
    that become empty left out. *)
Definition kept_lines (text : pystr) : list pystr :=
  filter (λ l, l ≠ []) (Text.strip <$> Text.file_lines text).

(** [t] is [line] without the whitespace around it. *)
Definition trimmed (line t : pystr) : Prop :=
  ∃ pre post,
    line = pre ++ t ++ post
    ∧ Forall (λ c, Text.isspace c = true) pre
    ∧ Forall (λ c, Text.isspace c = true) post
    ∧ (∀ c, head t = Some c → Text.isspace c = false)
    ∧ (∀ c, last t = Some c → Text.isspace c = false).

(** The files of an item: [<index+1>.txt] and [<index+1>.err] under the
    directory. *)
Definition txt_path (abs_dir : Os.path) (r : BatchResult) : Os.path :=
  abs_dir ++ [fmt_int (index r + 1) ++ str ".txt"].

Definition err_path (abs_dir : Os.path) (r : BatchResult) : Os.path :=
  abs_dir ++ [fmt_int (index r + 1) ++ str ".err"].

(** The file the writer is to write for an item: the [.txt] of an item
    without error, the [.err] of an item with an error and a non-empty body,
    and no file otherwise. *)
Definition writes (abs_dir : Os.path) (r : BatchResult) (p : Os.path) : Prop :=
  (error r = None ∧ p = txt_path abs_dir r)
  ∨ (error r ≠ None ∧ body r ≠ [] ∧ p = err_path abs_dir r).

(** The same as a function, with the bytes written; the sequence of these
    writes decides the files after the loop. *)
Definition file_of (abs_dir : Os.path) (r : BatchResult) : option (Os.path * bytes) :=
  match error r, body r with
  | None, _ => Some (txt_path abs_dir r, body r)
  | Some _, _ :: _ => Some (err_path abs_dir r, body r)
  | Some _, [] => None
  end.

Definition put (m : gmap (list (list N)) Os.node) (pd : Os.path * bytes)
    : gmap (list (list N)) Os.node :=
  <[pd.1 := Os.File pd.2]> m.

(** The bytes the last write to [q] in a sequence of writes leaves there. *)
Fixpoint last_put (q : Os.path) (ws : list (Os.path * bytes)) : option bytes :=
  match ws with
  | [] => None
  | (p, d) :: ws =>
      match last_put q ws with
      | Some d' => Some d'
      | None => if decide (p = q) then Some d else None
      end
  end.

(** The lines an item adds to the error stream. *)
Definition lines_of (repr : pystr → pystr) (verbose : bool) (r : BatchResult)
    : list pystr :=
  match error r with
  | Some e => [item_error_line repr (index r + 1) r e]
  | None => if verbose then [item_status_line (index r + 1) r] else []
  end.

(** The world after the loop, when no call has raised. *)
Definition written (repr : pystr → pystr) (abs_dir : Os.path) (verbose : bool)
    (results : list BatchResult) (w : Os.world) : Os.world :=
  {| Os.fs := foldl put (Os.fs w) (omap (file_of abs_dir) results);
     Os.stderr := Os.stderr w ++ concat (lines_of repr verbose <$> results) |}.

End Batch.

(** ** The [json] module of the Python library *)

Module Json.

(** The values [json.loads] returns. *)
Inductive value :=
  | Null
  | Bool (b : bool)
  | Int (z : Z)
  | Float (f : spec_float)
  | Str (s : pystr)
  | Arr (l : list value)
  | Obj (m : gmap (list N) value).

(** *** Numbers *)

(** The double nearest to [(-1)^neg * m * 10^e10], ties to even, as
    [float(literal)] computes it. *)
Definition float_of_decimal (neg : bool) (m : Z) (e10 : Z) : spec_float :=
  match m with
  | Zpos p =>
      if decide (0 ≤ e10) then
        binary_normalize 53 1024 ((if neg then -1 else 1) * (m * 10 ^ e10)) 0 neg
      else
        match 10 ^ (- e10) with
        | Zpos q => SFdiv 53 1024 (S754_finite neg p 0) (S754_finite false q 0)
        | _ => S754_nan
        end
  | _ => S754_zero neg
  end.

(** The comparison of a float with an integer, exact as in Python; [None]
    for a NaN, which compares false with everything. *)
Definition float_compare_int (f : spec_float) (k : Z) : option comparison :=
  match f with
  | S754_nan => None
  | S754_infinity s => Some (if s then Lt else Gt)
  | S754_zero _ => Some (0 ?= k)
  | S754_finite s m e =>
      let v := if s then Zneg m else Zpos m in
      if decide (0 ≤ e) then Some (v * 2 ^ e ?= k)
      else Some (v ?= k * 2 ^ (- e))
  end.

(** [isinstance(v, (int, float))]; a [bool] is an [int] in Python. *)
Definition isinstance_int_float (v : value) : bool :=
  match v with
  | Bool _ | Int _ | Float _ => true
  | _ => false
  end.

(** The comparison of a value for which [isinstance_int_float] holds with an
    integer. *)
Definition compare_int (v : value) (k : Z) : option comparison :=
  match v with
  | Bool b => Some ((if b then 1 else 0) ?= k)
  | Int z => Some (z ?= k)
  | Float f => float_compare_int f k
  | _ => None
  end.

(** [k < v], [v <= k] and [v >= k]. *)
Definition int_lt (k : Z) (v : value) : bool :=
  match compare_int v k with Some Gt => true | _ => false end.
Definition le_int (v : value) (k : Z) : bool :=
  match compare_int v k with Some Lt | Some Eq => true | _ => false end.
Definition ge_int (v : value) (k : Z) : bool :=
  match compare_int v k with Some Gt | Some Eq => true | _ => false end.

(** [int(f)] for a float: the integer part, towards zero. *)
Definition int_of_float (f : spec_float) : result Z :=
  match f with
  | S754_nan => Raises (ValueError (str "cannot convert float NaN to integer"))
  | S754_infinity _ => Raises OverflowError
  | S754_zero _ => Returns 0
  | S754_finite s m e =>
      let a := if decide (0 ≤ e) then Zpos m * 2 ^ e else Zpos m / 2 ^ (- e) in
      Returns (if s then - a else a)
  end.

(** [int(v)] for a value for which [isinstance_int_float] holds. *)
Definition int_of (v : value) : result Z :=
  match v with
  | Bool b => Returns (if b then 1 else 0)
  | Int z => Returns z
  | Float f => int_of_float f
  | _ => Raises TypeError
  end.

(** [m.get(key)]: only a [dict] has the method; a missing key gives [None]. *)
Definition get (m : value) (key : string) : result value :=
  match m with
  | Obj d => Returns (default Null (d !! str key))
  | _ => Raises AttributeError
  end.

(** *** The decoder *)

Local Open Scope N_scope.

Definition is_ws (c : N) : bool :=
  (c =? 32) || (c =? 9) || (c =? 10) || (c =? 13).

Fixpoint skip_ws (s : pystr) : pystr :=
  match s with
  | c :: r => if is_ws c then skip_ws r else s
  | [] => []
  end.

Definition is_digit (c : N) : bool := (48 <=? c) && (c <=? 57).

(** The leading ASCII digits of [s], as numbers, and what follows them. *)
Fixpoint digits (s : pystr) : list N * pystr :=
  match s with
  | c :: r =>
      if is_digit c then let '(ds, rest) := digits r in ((c - 48) :: ds, rest)
      else ([], s)
  | [] => ([], [])
  end.

Definition decimal (ds : list N) : Z :=
  foldl (λ acc d, 10 * acc + Z.of_N d)%Z 0%Z ds.

(** The text after the character [c], when [s] starts with it. *)
Definition expect (c : N) (s : pystr) : option pystr :=
  match s with
  | x :: r => if x =? c then Some r else None
  | [] => None
  end.

(** The parts of a number: a minus sign; an integer part, [0] or digits that
    do not start with [0]; a fraction, read only if a digit follows the
    point; an exponent, read only if a digit follows [e] and its sign. *)
Definition sign (s : pystr) : bool * pystr :=
  match expect 45 s with
  | Some r => (true, r)
  | None => (false, s)
  end.

Definition integer_digits (s : pystr) : option (list N * pystr) :=
  match s with
  | c :: r =>
      if c =? 48 then Some ([0], r)
      else if is_digit c then Some (digits s)
      else None
  | [] => None
  end.

Definition fraction_digits (s : pystr) : list N * pystr :=
  match expect 46 s with
  | Some r =>
      match digits r with
      | ([], _) => ([], s)
      | (fds, rest) => (fds, rest)
      end
  | None => ([], s)
  end.

Definition exponent (s : pystr) : option Z * pystr :=
  match s with
  | e :: r =>
      if (e =? 101) || (e =? 69) then
        let '(eneg, r1) :=
          match expect 45 r, expect 43 r with
          | Some r1, _ => (true, r1)
          | None, Some r1 => (false, r1)
          | None, None => (false, r)
          end in
        match digits r1 with
        | ([], _) => (None, s)
        | (eds, rest) =>
            (Some (if eneg then - decimal eds else decimal eds)%Z, rest)
        end
      else (None, s)
  | [] => (None, s)
  end.

(** The number at the head of [s].  A number with a fraction or an exponent
    is a float, any other an int. *)
Definition match_number (s : pystr) : option (value * pystr) :=
  let '(neg, s1) := sign s in
  match integer_digits s1 with
  | None => None
  | Some (ids, s2) =>
      let '(fds, s3) := fraction_digits s2 in
      let '(exp, s4) := exponent s3 in
      match fds, exp with
      | [], None => Some (Int (if neg then - decimal ids else decimal ids)%Z, s4)
      | _, _ =>
          Some (Float (float_of_decimal neg (decimal (ids ++ fds))
                         (default 0%Z exp - Z.of_nat (length fds))%Z), s4)
      end
  end.

Definition hex_digit (c : N) : option N :=
  if is_digit c then Some (c - 48)
  else if (97 <=? c) && (c <=? 102) then Some (c - 87)
  else if (65 <=? c) && (c <=? 70) then Some (c - 55)
  else None.

Definition hex4 (a b c d : N) : option N :=
  match hex_digit a, hex_digit b, hex_digit c, hex_digit d with
  | Some a, Some b, Some c, Some d => Some (((a * 16 + b) * 16 + c) * 16 + d)
  | _, _, _, _ => None
  end.

Definition simple_escape (c : N) : option N :=
  if c =? 34 then Some 34 else if c =? 92 then Some 92
  else if c =? 47 then Some 47 else if c =? 98 then Some 8
  else if c =? 102 then Some 12 else if c =? 110 then Some 10
  else if c =? 114 then Some 13 else if c =? 116 then Some 9
  else None.

(** The string whose opening quote has been read: its content and what
    follows the closing quote.  A control character, an unknown escape and a
    missing closing quote are errors; a [\uXXXX] pair of surrogates is one
    code point. *)
Fixpoint scanstring (s : pystr) (acc : pystr) : option (pystr * pystr) :=
  match s with
  | [] => None
  | c :: r =>
      if c =? 34 then Some (acc, r)
      else if c =? 92 then
        match r with
        | [] => None
        | e :: r1 =>
            if e =? 117 then
              match r1 with
              | h1 :: h2 :: h3 :: h4 :: r2 =>
                  match hex4 h1 h2 h3 h4 with
                  | None => None
                  | Some u =>
                      if (0xD800 <=? u) && (u <=? 0xDBFF) then
                        match r2 with
                        | b :: e' :: g1 :: g2 :: g3 :: g4 :: r3 =>
                            if (b =? 92) && (e' =? 117) then
                              match hex4 g1 g2 g3 g4 with
                              | None => None
                              | Some u2 =>
                                  if (0xDC00 <=? u2) && (u2 <=? 0xDFFF) then
                                    scanstring r3
                                      (acc ++ [0x10000 + (u - 0xD800) * 1024
                                                       + (u2 - 0xDC00)])
                                  else scanstring r2 (acc ++ [u])
                              end
                            else scanstring r2 (acc ++ [u])
                        | _ => scanstring r2 (acc ++ [u])
                        end
                      else scanstring r2 (acc ++ [u])
                  end
              | _ => None
              end
            else
              match simple_escape e with
              | Some ch => scanstring r1 (acc ++ [ch])
              | None => None
              end
        end
      else if c <? 32 then None
      else scanstring r (acc ++ [c])
  end.

Fixpoint starts_with (lit s : pystr) : option pystr :=
  match lit, s with
  | [], _ => Some s
  | a :: lit, c :: s => if a =? c then starts_with lit s else None
  | _ :: _, [] => None
  end.

Inductive scan :=
  | Ok (v : value) (rest : pystr)
  | Fail
  | TooDeep.

(** [scan_once] and the loops over the members of an object and the elements
    of an array.  The fuel bounds the depth of the calls; [decode] gives
    enough of it ([decode_fuel] below), so that nesting is not bounded here,
    where CPython raises [RecursionError] beyond its recursion limit. *)
Fixpoint scan_once (fuel : nat) (s : pystr) : scan :=
  match fuel with
  | O => TooDeep
  | S fuel =>
      match s with
      | [] => Fail
      | c :: r =>
          if c =? 34 then
            match scanstring r [] with
            | Some (k, rest) => Ok (Str k) rest
            | None => Fail
            end
          else if c =? 123 then
            match expect 125 (skip_ws r) with
            | Some rest => Ok (Obj ∅) rest
            | None => parse_members fuel ∅ (skip_ws r)
            end
          else if c =? 91 then
            match expect 93 (skip_ws r) with
            | Some rest => Ok (Arr []) rest
            | None => parse_elements fuel [] (skip_ws r)
            end
          else
            match starts_with (str "null") s, starts_with (str "true") s,
                  starts_with (str "false") s with
            | Some rest, _, _ => Ok Null rest
            | _, Some rest, _ => Ok (Bool true) rest
            | _, _, Some rest => Ok (Bool false) rest
            | None, None, None =>
                match match_number s with
                | Some (v, rest) => Ok v rest
                | None =>
                    match starts_with (str "NaN") s,
                          starts_with (str "Infinity") s,
                          starts_with (str "-Infinity") s with
                    | Some rest, _, _ => Ok (Float S754_nan) rest
                    | _, Some rest, _ => Ok (Float (S754_infinity false)) rest
                    | _, _, Some rest => Ok (Float (S754_infinity true)) rest
                    | None, None, None => Fail
                    end
                end
            end
      end
  end
with parse_members (fuel : nat) (acc : gmap (list N) value) (s : pystr) : scan :=
  match fuel with
  | O => TooDeep
  | S fuel =>
      match expect 34 s with
      | None => Fail
      | Some r =>
          match scanstring r [] with
          | None => Fail
          | Some (key, r1) =>
              match expect 58 (skip_ws r1) with
              | None => Fail
              | Some r2 =>
                  match scan_once fuel (skip_ws r2) with
                  | Ok v r3 =>
                      match expect 125 (skip_ws r3), expect 44 (skip_ws r3) with
                      | Some rest, _ => Ok (Obj (<[key := v]> acc)) rest
                      | None, Some r4 =>
                          parse_members fuel (<[key := v]> acc) (skip_ws r4)
                      | None, None => Fail
                      end
                  | other => other
                  end
              end
          end
      end
  end
with parse_elements (fuel : nat) (acc : list value) (s : pystr) : scan :=
  match fuel with
  | O => TooDeep
  | S fuel =>
      match scan_once fuel s with
      | Ok v r1 =>
          match expect 93 (skip_ws r1), expect 44 (skip_ws r1) with
          | Some rest, _ => Ok (Arr (acc ++ [v])) rest
          | None, Some r2 => parse_elements fuel (acc ++ [v]) (skip_ws r2)
          | None, None => Fail
          end
      | other => other
      end
  end.

(** [JSONDecoder.decode]: one value, white space around it, nothing else. *)
Definition decode (s : pystr) : result value :=
  match scan_once (2 * length s + 2) (skip_ws s) with
  | Ok v rest =>
      match skip_ws rest with
      | [] => Returns v
      | _ => Raises JSONDecodeError
      end
  | Fail => Raises JSONDecodeError
  | TooDeep => Raises RecursionError
  end.

(** [json.detect_encoding]. *)
Inductive encoding :=
  | Utf8 | Utf8Sig | Utf16 | Utf16Le | Utf16Be | Utf32 | Utf32Le | Utf32Be.

Definition detect_encoding (b : list N) : encoding :=
  match b with
  | 0 :: 0 :: 0xFE :: 0xFF :: _ => Utf32
  | 0xFF :: 0xFE :: 0 :: 0 :: _ => Utf32
  | 0xFE :: 0xFF :: _ => Utf16
  | 0xFF :: 0xFE :: _ => Utf16
  | 0xEF :: 0xBB :: 0xBF :: _ => Utf8Sig
  | b0 :: b1 :: b2 :: b3 :: _ =>
      if b0 =? 0 then (if b1 =? 0 then Utf32Be else Utf16Be)
      else if b1 =? 0 then
        (if (b2 =? 0) && (b3 =? 0) then Utf32Le else Utf16Le)
      else Utf8
  | [b0; b1] =>
      if b0 =? 0 then Utf16Be else if b1 =? 0 then Utf16Le else Utf8
  | _ => Utf8
  end.

(** The 16-bit units and the 32-bit units of a byte string; [None] when a
    unit is cut short. *)
Fixpoint units16 (big : bool) (b : list N) : option (list N) :=
  match b with
  | [] => Some []
  | x :: y :: r =>
      cons (if big then x * 256 + y else y * 256 + x) <$> units16 big r
  | _ => None
  end.

Fixpoint units32 (big : bool) (b : list N) : option (list N) :=
  match b with
  | [] => Some []
  | x :: y :: z :: t :: r =>
      cons (if big then ((x * 256 + y) * 256 + z) * 256 + t
            else ((t * 256 + z) * 256 + y) * 256 + x) <$> units32 big r
  | _ => None
  end.

(** UTF-16 units to code points: a high surrogate and the low one after it
    are one code point; under [surrogatepass] a lone surrogate stays. *)
Fixpoint join_surrogates (u : list N) : list N :=
  match u with
  | [] => []
  | h :: r =>
      match r with
      | l :: r' =>
          if (0xD800 <=? h) && (h <=? 0xDBFF) && (0xDC00 <=? l) && (l <=? 0xDFFF)
          then (0x10000 + (h - 0xD800) * 1024 + (l - 0xDC00)) :: join_surrogates r'
          else h :: join_surrogates r
      | [] => [h]
      end
  end.

Definition utf16_decode (big : bool) (b : list N) : option pystr :=
  join_surrogates <$> units16 big b.

Definition utf32_decode (big : bool) (b : list N) : option pystr :=
  match units32 big b with
  | Some u => if forallb (λ c, c <=? 0x10FFFF) u then Some u else None
  | None => None
  end.

(** [b.decode(detect_encoding(b), "surrogatepass")]. *)
Definition decode_bytes (b : list N) : option pystr :=
  match detect_encoding b with
  | Utf8 => Text.utf8_decode true b
  | Utf8Sig => Text.utf8_decode true (drop 3 b)
  | Utf16 =>
      match b with
      | 0xFE :: _ => utf16_decode true (drop 2 b)
      | _ => utf16_decode false (drop 2 b)
      end
  | Utf16Le => utf16_decode false b
  | Utf16Be => utf16_decode true b
  | Utf32 =>
      match b with
      | 0 :: _ => utf32_decode true (drop 4 b)
      | _ => utf32_decode false (drop 4 b)
      end
  | Utf32Le => utf32_decode false b
  | Utf32Be => utf32_decode true b
  end.

(** [json.loads(body)] for [bytes]. *)
Definition loads (body : bytes) : result value :=
  match decode_bytes (Text.bytes_to_N body) with
  | Some s => decode s
  | None => Raises UnicodeDecodeError
  end.

End Json.

(** ** client.py: the usage parser *)

Module Client.
Import Json.

Definition concurrency_keys : list string :=
  ["max_concurrency"; "max_concurrent_requests"; "concurrent_request_limit";
   "concurrency"; "concurrent_requests"]%string.

Definition credit_keys : list string :=
  ["credits"; "available_credits"; "credit_balance"; "balance";
   "credits_remaining"; "remaining_credits"]%string.

Definition is_not_none (v : value) : bool :=
  match v with Null => false | _ => true end.

(** The tests of the two loops. *)
Definition concurrency_test (v : value) : bool :=
  is_not_none v && isinstance_int_float v && int_lt 0 v && le_int v 10000.

Definition credits_test (v : value) : bool :=
  is_not_none v && isinstance_int_float v && ge_int v 0.

(** The first loop: the first key whose value passes the test sets
    [out["max_concurrency"]] and ends the loop. *)
Fixpoint concurrency_loop (m : value) (keys : list string)
    (out : gmap (list N) Z) : result (gmap (list N) Z) :=
  match keys with
  | [] => Returns out
  | key :: keys =>
      let* v := get m key in
      if concurrency_test v then
        let* n := int_of v in
        Returns (<[str "max_concurrency" := n]> out)
      else concurrency_loop m keys out
  end.

(** The second loop: the first key whose value passes the test sets
    [out["credits"]] and returns from the function ([inl]); when no key
    does, the function goes on ([inr]). *)
Fixpoint credits_loop (m : value) (keys : list string)
    (out : gmap (list N) Z) : result (gmap (list N) Z + gmap (list N) Z) :=
  match keys with
  | [] => Returns (inr out)
  | key :: keys =>
      let* v := get m key in
      if credits_test v then
        let* n := int_of v in
        Returns (inl (<[str "credits" := n]> out))
      else credits_loop m keys out
  end.

Definition credits_fallback (m : value) (out : gmap (list N) Z)
    : result (gmap (list N) Z) :=
  let* max_credit := get m "max_api_credit" in
  let* used_credit := get m "used_api_credit" in
  if isinstance_int_float max_credit && isinstance_int_float used_credit then
    let* a := int_of max_credit in
    let* b := int_of used_credit in
    let avail := (a - b)%Z in
    if decide (0 ≤ avail)%Z then Returns (<[str "credits" := avail]> out)
    else Returns out
  else Returns out.

Section ParseUsage.

(** [json.loads], a function of the library. *)
Variable json_loads : bytes → result value.

Definition parse_usage (body : bytes) : result (gmap (list N) Z) :=
  let out := Batch.usage_info 5 0 in
  match json_loads body with
  | Raises JSONDecodeError => Returns out
  | Raises e => Raises e
  | Returns m =>
      let* out := concurrency_loop m concurrency_keys out in
      let* r := credits_loop m credit_keys out in
      match r with
      | inl out => Returns out
      | inr out => credits_fallback m out
      end
  end.

End ParseUsage.

(** *** The extraction as the specification words it *)

(** A numeric value of the document: a JSON number. *)
Definition numeric (v : value) : bool :=
  match v with
  | Int _ | Float _ => true
  | _ => false
  end.

(** The value under a key, an absent key reading as [null]. *)
Definition present (d : gmap (list N) value) (key : string) : value :=
  default Null (d !! str key).

(** The first value, in the order of the keys, that passes the test. *)
Definition first_present (P : value → bool) (keys : list string)
    (d : gmap (list N) value) : option value :=
  head (filter (λ v, P v = true) (present d <$> keys)).

(** "numeric, in (0, 10000]" and "numeric, >= 0". *)
Definition in_range (v : value) : bool :=
  numeric v && int_lt 0 v && le_int v 10000.

Definition non_negative (v : value) : bool :=
  numeric v && ge_int v 0.

(** The concurrency limit the specification names: the first present numeric
    value in (0, 10000] among the aliases, 5 when there is none. *)
Definition claimed_max_concurrency (d : gmap (list N) value) : value :=
  default (Int 5) (first_present in_range concurrency_keys d).

(** [int(v)] as a total function. *)
Definition int_part (v : value) : Z :=
  match int_of v with
  | Returns z => z
  | Raises _ => 0
  end.

(** The two limits with the conversion the code applies to what it finds. *)
Definition converted_max_concurrency (d : gmap (list N) value) : Z :=
  int_part (claimed_max_concurrency d).

Definition converted_credits (d : gmap (list N) value) : Z :=
  match first_present non_negative credit_keys d with
  | Some v => int_part v
  | None =>
      let a := present d "max_api_credit" in
      let b := present d "used_api_credit" in
      if numeric a && numeric b && (0 <=? int_part a - int_part b)%Z
      then int_part a - int_part b
      else 0
  end.

(** The documents the amended statement speaks of: under the recognised
    names there is no boolean, under the concurrency aliases no number
    strictly between 0 and 1, and under the credit names no infinity and no
    NaN. *)
Definition not_bool (v : value) : bool :=
  match v with Bool _ => false | _ => true end.

Definition finite (v : value) : bool :=
  match v with
  | Float S754_nan | Float (S754_infinity _) => false
  | _ => true
  end.

Definition below_one (v : value) : bool :=
  numeric v && int_lt 0 v && negb (ge_int v 1).

Definition regular (d : gmap (list N) value) : bool :=
  forallb (λ key, not_bool (present d key) && negb (below_one (present d key)))
          concurrency_keys
  && forallb (λ key, not_bool (present d key) && finite (present d key))
             (credit_keys ++ ["max_api_credit"; "used_api_credit"]%string).

End Client.

(** ** config.py *)

Module Config.

Definition ENV_API_KEY : string := "SCRAPINGBEE_API_KEY".
Definition BASE_URL : string := "https://app.scrapingbee.com/api/v1".

Definition no_api_key_msg : pystr :=
  str "API key not provided. Use --api-key flag or set " ++ str ENV_API_KEY
    ++ str " environment variable".

(** [environ] is [os.environ]; an empty string is falsy, as [None] is. *)
Definition get_api_key (environ : gmap (list N) (list N))
    (flag_value : option pystr) : result pystr :=
  match flag_value with
  | Some (c :: v) => Returns (c :: v)
  | _ =>
      match environ !! str ENV_API_KEY with
      | Some (c :: k) => Returns (c :: k)
      | _ => Raises (ValueError no_api_key_msg)
      end
  end.

End Config.

(** ** client.py: the client and its requests *)

Module Http.

(** The values of a [params] dictionary: [None], a string or an integer. *)
Inductive param :=
  | PNone
  | PStr (s : pystr)
  | PInt (z : Z).

(** What a request gives: the triple [(resp.content, dict(resp.headers),
    resp.status_code)], or the exception the transport raises. *)
Inductive reply :=
  | Response (content : bytes) (headers : gmap (list N) (list N)) (status_code : Z)
  | Throws (e : Exception).

Record Client := {
  api_key : pystr;
  base_url : pystr;
  timeout : Z
}.

(** [s.rstrip("/")]. *)
Fixpoint lstrip_slash (s : pystr) : pystr :=
  match s with
  | c :: rest => if (c =? 47)%N then lstrip_slash rest else s
  | [] => []
  end.

Definition rstrip_slash (s : pystr) : pystr :=
  reverse (lstrip_slash (reverse s)).

(** [Client(api_key, base_url, timeout)]; the defaults of the constructor are
    [BASE_URL] and 150. *)
Definition new_client (api_key base_url : pystr) (timeout : Z) : Client :=
  {| api_key := api_key; base_url := rstrip_slash base_url; timeout := timeout |}.

(** [v is not None and v != ""]. *)
Definition sendable (v : param) : bool :=
  match v with
  | PNone | PStr [] => false
  | _ => true
  end.

(** [d.setdefault(k, v)], for the dictionary it leaves. *)
Definition setdefault (d : gmap (list N) param) (k : pystr) (v : param)
    : gmap (list N) param :=
  match d !! k with
  | Some _ => d
  | None => <[k := v]> d
  end.

(** An optional string and [n if n else None] for an optional integer. *)
Definition opt_str (v : option pystr) : param :=
  match v with
  | Some s => PStr s
  | None => PNone
  end.

Definition int_if_truthy (v : option Z) : param :=
  match v with
  | Some z => if decide (z = 0) then PNone else PInt z
  | None => PNone
  end.

Section Requests.

(** [self._session.get(url, params=params, timeout=timeout)] and the triple
    read from the response. *)
Variable session_get : pystr → gmap (list N) param → Z → reply.

(** The parameters [_get] sends. *)
Definition request_params (c : Client) (params : gmap (list N) param)
    : gmap (list N) param :=
  setdefault (filter (λ kv, sendable kv.2 = true) params)
             (str "api_key") (PStr (api_key c)).

Definition _get (c : Client) (path : pystr) (params : gmap (list N) param)
    : reply :=
  session_get (base_url c ++ path) (request_params c params) (timeout c).

Definition usage (c : Client) : reply :=
  _get c (str "/usage") {[ str "api_key" := PStr (api_key c) ]}.

Definition fast_search (c : Client) (search : pystr) (page : option Z)
    (country_code language : option pystr) : reply :=
  _get c (str "/fast_search")
    (<[str "language" := opt_str language]>
     (<[str "country_code" := opt_str country_code]>
      (<[str "page" := int_if_truthy page]>
       (<[str "search" := PStr search]> ∅)))).

End Requests.

End Http.

(** ** batch.py: the usage query; cli.py: the batch branch of a command *)

Module Cli.

(** What the code below raises: an exception of the classes above, a
    [RuntimeError] with its text, or the exception of the transport. *)
Inductive error :=
  | Exn (e : exn)
  | RuntimeError (msg : pystr)
  | Thrown (e : Exception).

Inductive outcome (A : Type) :=
  | Fine (a : A)
  | Failed (e : error).
Arguments Fine {A} a.
Arguments Failed {A} e.

Definition lift {A} (r : result A) : outcome A :=
  match r with
  | Returns a => Fine a
  | Raises e => Failed (Exn e)
  end.

Definition and_then {A B} (r : outcome A) (k : A → outcome B) : outcome B :=
  match r with
  | Fine a => k a
  | Failed e => Failed e
  end.

Notation "'let+' x := r 'in' k" := (and_then r (λ x, k))
  (at level 10, x name, r at level 100, k at level 200).

(** [ctx.obj], as the callback of the command group fills it. *)
Record context := {
  obj_api_key : option pystr;
  obj_output_file : option pystr;
  obj_verbose : bool;
  obj_batch_output_dir : pystr;
  obj_concurrency : Z
}.

Definition cli (api_key output_file : option pystr) (verbose : bool)
    (batch_output_dir : option pystr) (concurrency : Z) : context :=
  {| obj_api_key := api_key;
     obj_output_file := output_file;
     obj_verbose := verbose;
     obj_batch_output_dir :=
       match batch_output_dir with Some (c :: d) => c :: d | _ => [] end;
     obj_concurrency := int_or concurrency 0 |}.

(** [s or None]. *)
Definition or_none (s : pystr) : option pystr :=
  match s with
  | [] => None
  | _ => Some s
  end.

(** The text of an absolute path. *)
Definition path_str (p : Os.path) : pystr :=
  match p with
  | [] => str "/"
  | _ => concat ((λ c, 47%N :: c) <$> p)
  end.


(** The function [do_one] the commands hand to [run_batch]: the call of the
    client inside [try], a status of 400 or more turned into a
    [RuntimeError], and [(b"", 0, e)] for an exception [e]. *)
Definition guarded (call : pystr → Http.reply) : Batch.worker := λ inp,
  match call inp with
  | Http.Response data _ status_code =>
      if decide (400 ≤ status_code) then
        (data, status_code,
         Some {| exc_class := str "RuntimeError";
                 exc_str := str "HTTP " ++ fmt_int status_code |})
      else (data, status_code, None)
  | Http.Throws e => ([], 0, Some e)
  end.

Section Commands.

Variable environ : gmap (list N) (list N).
Variable session_get : pystr → gmap (list N) Http.param → Z → Http.reply.
Variable json_loads : bytes → result Json.value.
Variable resolve : pystr → Os.path.
Variable repr : pystr → pystr.

(** batch.py: [get_batch_usage]. *)
Definition get_batch_usage (api_key_flag : option pystr)
    : outcome (gmap (list N) Z) :=
  let+ key := lift (Config.get_api_key environ api_key_flag) in
  let client := Http.new_client key (str Config.BASE_URL) 150 in
  match Http.usage session_get client with
  | Http.Throws e => Failed (Thrown e)
  | Http.Response body _ code =>
      if decide (code ≠ 200) then
        Failed (RuntimeError (str "usage API returned HTTP " ++ fmt_int code))
      else lift (Client.parse_usage json_loads body)
  end.

(** cli.py: the batch branch of a command, from [read_input_file] to the
    line it echoes; [call] is the request of the command for one input. *)
Definition batch_branch (order : list nat) (now : pystr) (obj : context)
    (input_file : pystr) (call : pystr → Http.reply) (w : Os.world)
    : outcome (pystr * Os.world) :=
  let+ inputs := lift (Batch.read_input_file resolve input_file w) in
  let+ usage_info := get_batch_usage (obj_api_key obj) in
  let+ _ := lift (Batch.validate_batch_run (obj_concurrency obj)
                    (Z.of_nat (length inputs)) usage_info) in
  let concurrency :=
    Batch.resolve_batch_concurrency (obj_concurrency obj) usage_info
      (Z.of_nat (length inputs)) in
  let+ results := lift (Batch.run_batch order inputs concurrency (guarded call)) in
  let+ written :=
    lift (Batch.write_batch_output_to_dir resolve repr now results
            (or_none (obj_batch_output_dir obj)) (obj_verbose obj) w) in
  Fine (str "Batch complete. Output written to " ++ path_str written.1,
        written.2).

End Commands.

End Cli.

(** ** Concrete inputs for the instances *)

(** A worker that fails on the second of three inputs, for the concrete
    instances below. *)
Definition sample_inputs : list pystr := [str "a"; str "b"; str "c"].

Definition sample_worker : Batch.worker := λ inp,
  if decide (inp = str "b")
  then ([], 0, Some {| exc_class := str "RuntimeError"; exc_str := str "boom" |})
  else (Byte.x4f :: Byte.x4b :: [], 200, None).

(** The environment of the instances: paths are resolved under [/home], and
    [repr] puts a string between single quotes. *)
Definition sample_resolve : pystr → Os.path := λ p, [str "home"; p].

Definition sample_repr : pystr → pystr := λ s, [39%N] ++ s ++ [39%N].

Definition empty_world : Os.world := {| Os.fs := ∅; Os.stderr := [] |}.

(** The results of the writer example of the specification. *)
Definition ok_result : Batch.BatchResult :=
  {| Batch.index := 0; Batch.input := str "a";
     Batch.body := Byte.x4f :: Byte.x4b :: []; Batch.status_code := 200;
     Batch.error := None |}.

Definition failed_result : Batch.BatchResult :=
  {| Batch.index := 1; Batch.input := str "b"; Batch.body := [];
     Batch.status_code := 0;
     Batch.error := Some {| exc_class := str "RuntimeError"; exc_str := str "boom" |} |}.

Definition sample_results : list Batch.BatchResult := [ok_result; failed_result].

(** A world whose file [/home/inputs.txt] holds the bytes of
    ["  a \n\n b\n\t\n"]. *)
Definition sample_input_world : Os.world :=
  {| Os.fs := {[ [str "home"; str "inputs.txt"] :=
                   Os.File (omap Byte.of_N [32; 32; 97; 32; 10; 10; 32; 98; 10; 9; 10]%N) ]};
     Os.stderr := [] |}.

(** A body written with ['] for the quote of JSON. *)
Definition json_text (s : string) : bytes :=
  (λ b, match b with Byte.x27 => Byte.x22 | _ => b end) <$> list_byte_of_string s.

(** The environment, the transport and the request of the instances of the
    batch branch: a key in the environment, a usage answer of 5 concurrent
    requests and 100 credits, and a request that is refused for the input
    [b]. *)
Definition sample_environ : gmap (list N) (list N) :=
  {[ str Config.ENV_API_KEY := str "key" ]}.

Definition sample_session_get
    : pystr → gmap (list N) Http.param → Z → Http.reply := λ _ _ _,
  Http.Response (json_text "{'max_concurrency': 5, 'credits': 100}") ∅ 200.

Definition sample_call : pystr → Http.reply := λ inp,
  if decide (inp = str "b")
  then Http.Response (Byte.x6e :: Byte.x6f :: []) ∅ 404
  else Http.Response (Byte.x4f :: Byte.x4b :: []) ∅ 200.

(** ** Properties of the pre-flight checks *)

Section Validator.
Import Batch.

Lemma usage_info_max_concurrency mc cr :
  usage_get (usage_info mc cr) "max_concurrency" 5 = mc.
Proof.
  unfold usage_get, usage_info.
  rewrite lookup_insert_ne by (vm_compute; discriminate).
  by rewrite lookup_insert_eq.
Qed.

Lemma usage_info_credits mc cr :
  usage_get (usage_info mc cr) "credits" 0 = cr.
Proof. unfold usage_get, usage_info. by rewrite lookup_insert_eq. Qed.

(** C3.  [validate_batch_run] raises exactly when the requested concurrency
    is positive and above the plan limit, or the credits are positive and
    fewer than the inputs.  The plan-limit error is built from the requested
    and the allowed concurrency, the credits error from the number of inputs
    and the credits; with credits [0] only the plan limit decides.  The
    function is a pure decision: it reads its arguments and returns or
    raises, no state is threaded through it. *)
Theorem validate_batch_run_raises_iff :
  ∀ (requested num_inputs : Z) (usage : gmap (list N) Z),
    let max_concurrency := usage_get usage "max_concurrency" 5 in
    let credits := usage_get usage "credits" 0 in
    let plan := requested > 0 ∧ requested > max_concurrency in
    let short := credits > 0 ∧ num_inputs > credits in
    (raises (validate_batch_run requested num_inputs usage) ↔ plan ∨ short)
    ∧ (plan → validate_batch_run requested num_inputs usage
              = Raises (ValueError (plan_limit_msg requested max_concurrency)))
    ∧ (¬ plan → short → validate_batch_run requested num_inputs usage
              = Raises (ValueError (credits_msg num_inputs credits)))
    ∧ (¬ plan → ¬ short →
         validate_batch_run requested num_inputs usage = Returns tt)
    ∧ (credits = 0 →
         (raises (validate_batch_run requested num_inputs usage) ↔ plan)).
Proof.
  intros requested num_inputs usage mc cr plan short.
  unfold validate_batch_run, raises.
  fold mc cr. fold plan short.
  destruct (decide plan) as [Hp|Hp]; [|destruct (decide short) as [Hs|Hs]].
  - split_and!; try tauto.
    + split; eauto.
    + split; eauto.
  - split_and!; try tauto.
    + split; eauto.
    + intros Hc. exfalso. unfold short in Hs. lia.
  - split_and!; try tauto.
    + split; [intros [e He]; discriminate | tauto].
    + intros _. split; [intros [e He]; discriminate | tauto].
Qed.

(** The validator examples of the specification. *)
Example validate_examples :
  raises (validate_batch_run 10 3 (usage_info 5 0))
  ∧ raises (validate_batch_run 0 100 (usage_info 5 50))
  ∧ validate_batch_run 3 100 (usage_info 5 0) = Returns tt.
Proof. vm_compute. eauto. Qed.

End Validator.

(** ** Properties of the batch executor *)

Section Executor.
Import Batch.

Lemma do_one_expected fn k inp :
  do_one fn (Z.of_nat k) inp = (Z.of_nat k, expected_result fn k inp).
Proof. unfold do_one, expected_result. by destruct (fn inp) as [[b c] e]. Qed.

Lemma submit_all_lookup fn inputs k :
  submit_all fn inputs !! k
  = (λ inp, (Z.of_nat k, expected_result fn k inp)) <$> inputs !! k.
Proof.
  unfold submit_all. rewrite list_lookup_imap.
  destruct (inputs !! k); simpl; [|done]. by rewrite do_one_expected.
Qed.

Lemma list_setitem_nat {A} (l : list A) (k : nat) (x : A) :
  (k < length l)%nat → list_setitem l (Z.of_nat k) x = Returns (<[k := x]> l).
Proof.
  intros Hk. unfold list_setitem.
  destruct (decide (Z.of_nat k < 0)) as [?|_]; [lia|].
  destruct (decide _) as [_|?]; [|lia].
  by rewrite Nat2Z.id.
Qed.

(** The slots after the loop: a position that was yielded holds its record,
    every other slot is as before. *)
Lemma collect_slots fn inputs order :
  ∀ results : list (option BatchResult),
    length results = length inputs →
    ∃ results',
      collect (as_completed (submit_all fn inputs) order) results = Returns results'
      ∧ length results' = length inputs
      ∧ ∀ k inp, inputs !! k = Some inp →
          results' !! k = if decide (k ∈ order)
                          then Some (Some (expected_result fn k inp))
                          else results !! k.
Proof.
  induction order as [|j order IH]; intros results Hlen.
  - exists results. split_and!; [done..|].
    intros k inp _. rewrite decide_False; [done|]. apply not_elem_of_nil.
  - unfold as_completed. simpl. rewrite submit_all_lookup.
    destruct (inputs !! j) as [inpj|] eqn:Hj; simpl.
    + assert (j < length results)%nat as Hjlt.
      { rewrite Hlen. by eapply lookup_lt_Some. }
      rewrite list_setitem_nat by done. simpl.
      destruct (IH (<[j := Some (expected_result fn j inpj)]> results))
        as (results' & Hrun & Hlen' & Hslots).
      { by rewrite length_insert. }
      exists results'. split_and!; [done..|].
      intros k inp Hk. rewrite (Hslots k inp Hk).
      destruct (decide (k ∈ order)) as [Hin|Hnin].
      * rewrite decide_True; [done|]. rewrite elem_of_cons; by right.
      * destruct (decide (k = j)) as [->|Hne].
        -- rewrite decide_True by (rewrite elem_of_cons; by left).
           rewrite list_lookup_insert_eq by done. congruence.
        -- rewrite decide_False.
           ++ by rewrite list_lookup_insert_ne.
           ++ rewrite elem_of_cons. intros [?|?]; done.
    + destruct (IH results Hlen) as (results' & Hrun & Hlen' & Hslots).
      exists results'. split_and!; [done..|].
      intros k inp Hk. rewrite (Hslots k inp Hk).
      destruct (decide (k ∈ order)) as [Hin|Hnin].
      * rewrite decide_True; [done|]. rewrite elem_of_cons; by right.
      * rewrite decide_False; [done|].
        rewrite elem_of_cons. intros [->|?]; [congruence|done].
Qed.

Lemma omap_id_Some {A} (l : list A) : omap id (Some <$> l) = l.
Proof. induction l as [|x l IH]; csimpl; [done|]. by rewrite IH. Qed.

(** Whatever the order in which the futures are yielded, the executor
    returns the expected records in input order. *)
Lemma run_batch_schedule order inputs (concurrency : Z) fn :
  inputs ≠ [] → 1 ≤ concurrency → schedule inputs order →
  run_batch order inputs concurrency fn = Returns (imap (expected_result fn) inputs).
Proof.
  intros Hne Hc Hperm. unfold run_batch.
  assert (effective_concurrency concurrency inputs > 0) as Hpool.
  { unfold effective_concurrency, int_or. rewrite decide_False by lia.
    destruct inputs; [done|]. simpl length. lia. }
  unfold ThreadPoolExecutor. rewrite decide_False by lia. simpl.
  destruct (collect_slots fn inputs order (replicate (length inputs) None))
    as (results' & -> & Hlen & Hslots).
  { by rewrite length_replicate. }
  simpl. f_equal.
  assert (results' = Some <$> imap (expected_result fn) inputs) as ->.
  { apply list_eq. intros k.
    rewrite list_lookup_fmap, list_lookup_imap.
    destruct (inputs !! k) as [inp|] eqn:Hk; simpl.
    - rewrite (Hslots k inp Hk). rewrite decide_True; [done|].
      unfold schedule in Hperm. rewrite Hperm. apply elem_of_seq.
      apply lookup_lt_Some in Hk. lia.
    - apply lookup_ge_None in Hk. apply lookup_ge_None. lia. }
  apply omap_id_Some.
Qed.

(** C1.  For a non-empty input list, a concurrency of at least 1 and a
    worker that returns a triple for every input, [run_batch] returns, under
    every order in which the futures complete, a list as long as the inputs
    whose [k]-th record has [index = k], [input = I[k]] and the body, status
    and error the worker returned for [I[k]]; the [k]-th record is the same
    under any other completion order and any other worker that answers
    [I[k]] alike, whatever that worker answers (failures included) for the
    other items. *)
Theorem run_batch_order_and_isolation :
  ∀ (inputs : list pystr) (concurrency : Z) (fn : worker) (order : list nat),
    inputs ≠ [] → 1 ≤ concurrency → schedule inputs order →
    ∃ results,
      run_batch order inputs concurrency fn = Returns results
      ∧ length results = length inputs
      ∧ (∀ k inp, inputs !! k = Some inp →
           ∃ r, results !! k = Some r
                ∧ index r = Z.of_nat k ∧ input r = inp
                ∧ (body r, status_code r, error r) = fn inp)
      ∧ (∀ (fn' : worker) (order' : list nat) k inp,
           schedule inputs order' → inputs !! k = Some inp → fn' inp = fn inp →
           ∃ results',
             run_batch order' inputs concurrency fn' = Returns results'
             ∧ results' !! k = results !! k).
Proof.
  intros inputs concurrency fn order Hne Hc Hsched.
  exists (imap (expected_result fn) inputs).
  split_and!.
  - by apply run_batch_schedule.
  - apply length_imap.
  - intros k inp Hk. exists (expected_result fn k inp).
    rewrite list_lookup_imap, Hk. split_and!; try done.
    simpl. by destruct (fn inp) as [[b c] e].
  - intros fn' order' k inp Hsched' Hk Hfn.
    exists (imap (expected_result fn') inputs). split.
    + by apply run_batch_schedule.
    + rewrite !list_lookup_imap, Hk. simpl.
      unfold expected_result. by rewrite Hfn.
Qed.

(** C2, as amended.  For a non-empty input list and a concurrency that is
    not negative, the pool is built with [min(max(concurrency, 1), len(inputs))]
    workers: at least one, at most one per input, and exactly [len(inputs)]
    when the concurrency exceeds it. *)
Theorem effective_concurrency_nonneg :
  ∀ (inputs : list pystr) (concurrency : Z),
    inputs ≠ [] → 0 ≤ concurrency →
    let n := Z.of_nat (length inputs) in
    effective_concurrency concurrency inputs = Z.min (Z.max concurrency 1) n
    ∧ 1 ≤ effective_concurrency concurrency inputs ≤ n
    ∧ (n < concurrency → effective_concurrency concurrency inputs = n)
    ∧ ThreadPoolExecutor (effective_concurrency concurrency inputs)
      = Returns {| max_workers := Z.min (Z.max concurrency 1) n |}.
Proof.
  intros inputs concurrency Hne Hc n.
  assert (1 ≤ n) as Hn.
  { subst n. destruct inputs; [done|]. simpl length. lia. }
  assert (effective_concurrency concurrency inputs = Z.min (Z.max concurrency 1) n)
    as Heq.
  { unfold effective_concurrency, int_or. fold n. case_decide; lia. }
  rewrite Heq. split_and!; try lia.
  unfold ThreadPoolExecutor. by rewrite decide_False by lia.
Qed.

(** C9.  On the empty input list the computed pool size is not positive,
    whatever the concurrency, and [run_batch] raises the [ValueError] of the
    pool constructor instead of returning an empty list. *)
Theorem run_batch_empty_raises :
  ∀ (concurrency : Z) (fn : worker) (order : list nat),
    effective_concurrency concurrency [] ≤ 0
    ∧ run_batch order [] concurrency fn
      = Raises (ValueError (str "max_workers must be greater than 0")).
Proof.
  intros concurrency fn order.
  assert (effective_concurrency concurrency [] ≤ 0) as Hle.
  { unfold effective_concurrency. simpl. lia. }
  split; [done|].
  unfold run_batch, ThreadPoolExecutor. by rewrite decide_True.
Qed.

End Executor.

Lemma run_batch_order_and_isolation_witness :
  ∃ results,
    Batch.run_batch [2; 0; 1]%nat sample_inputs 2 sample_worker = Returns results
    ∧ length results = length sample_inputs
    ∧ (∀ k inp, sample_inputs !! k = Some inp →
         ∃ r, results !! k = Some r
              ∧ Batch.index r = Z.of_nat k ∧ Batch.input r = inp
              ∧ (Batch.body r, Batch.status_code r, Batch.error r) = sample_worker inp)
    ∧ (∀ (fn' : Batch.worker) (order' : list nat) k inp,
         Batch.schedule sample_inputs order' → sample_inputs !! k = Some inp →
         fn' inp = sample_worker inp →
         ∃ results',
           Batch.run_batch order' sample_inputs 2 fn' = Returns results'
           ∧ results' !! k = results !! k).
Proof.
  apply (run_batch_order_and_isolation sample_inputs 2 sample_worker [2; 0; 1]%nat).
  - discriminate.
  - lia.
  - unfold Batch.schedule. simpl.
    change [2; 0; 1]%nat with ([2]%nat ++ [0; 1]%nat).
    rewrite (Permutation_app_comm [2]%nat). reflexivity.
Defined.

Lemma effective_concurrency_nonneg_witness :
  Batch.effective_concurrency 7 sample_inputs = Z.min (Z.max 7 1) 3
  ∧ 1 ≤ Batch.effective_concurrency 7 sample_inputs ≤ 3
  ∧ (3 < 7 → Batch.effective_concurrency 7 sample_inputs = 3)
  ∧ Batch.ThreadPoolExecutor (Batch.effective_concurrency 7 sample_inputs)
    = Returns {| Batch.max_workers := Z.min (Z.max 7 1) 3 |}.
Proof.
  apply (effective_concurrency_nonneg sample_inputs 7); [discriminate | lia].
Defined.

(** C2 as stated fails on a negative concurrency: [-1 or 1] is [-1], the
    pool size is [-1] where [min(max(-1, 1), 1)] is [1], and the pool
    constructor raises. *)
Lemma effective_concurrency_negative :
  Batch.effective_concurrency (-1) [str "a"] = -1
  ∧ Batch.effective_concurrency (-1) [str "a"]
    ≠ Z.min (Z.max (-1) 1) (Z.of_nat (length [str "a"]))
  ∧ Batch.run_batch [0%nat] [str "a"] (-1) sample_worker
    = Raises (ValueError (str "max_workers must be greater than 0")).
Proof. split_and!; [reflexivity | discriminate | reflexivity]. Qed.

(** ** Properties of the result writer *)

Section WriterProperties.
Import Os Batch.

Variable resolve : pystr → path.
Variable repr : pystr → pystr.

Lemma file_of_writes abs_dir r p d :
  file_of abs_dir r = Some (p, d) ↔ writes abs_dir r p ∧ d = body r.
Proof.
  unfold file_of, writes.
  destruct (error r) as [e|], (body r) as [|b bs]; split.
  all: try (intros [= <- <-]; split; [|done]).
  all: try (intros [[[??]|(?&?&?)] ->]; by simplify_eq).
  all: try discriminate.
  - right. done.
  - left. done.
  - left. done.
Qed.

Lemma lookup_puts_last m ws q :
  foldl put m ws !! q
  = match last_put q ws with Some d => Some (File d) | None => m !! q end.
Proof.
  revert m. induction ws as [|[p d] ws IH]; intros m; simpl; [done|].
  rewrite IH. destruct (last_put q ws); [done|].
  unfold put. simpl. destruct (decide (p = q)) as [->|Hne].
  - by rewrite lookup_insert_eq.
  - by rewrite lookup_insert_ne.
Qed.

Lemma last_put_None q ws : last_put q ws = None ↔ q ∉ ws.*1.
Proof.
  induction ws as [|[p d] ws IH]; simpl.
  - split; [intros _; apply not_elem_of_nil | done].
  - rewrite not_elem_of_cons. destruct (last_put q ws).
    + split; [done|]. intros [_ Hq]. by apply IH in Hq.
    + destruct (decide (p = q)) as [->|Hne]; split; try done.
      * intros [? _]. done.
      * intros _. split; [done|]. by apply IH.
Qed.

Lemma last_put_app_last q ws1 d ws2 :
  q ∉ ws2.*1 → last_put q (ws1 ++ (q, d) :: ws2) = Some d.
Proof.
  intros Hq. induction ws1 as [|[p' d'] ws1 IH]; simpl.
  - apply last_put_None in Hq. rewrite Hq. by rewrite decide_True.
  - by rewrite IH.
Qed.

Lemma puts_idempotent m ws : foldl put (foldl put m ws) ws = foldl put m ws.
Proof.
  apply map_eq. intros q. rewrite !lookup_puts_last.
  by destruct (last_put q ws).
Qed.

Lemma on_way_cons base c rest q :
  on_way base (c :: rest) q ↔ q = base ++ [c] ∨ on_way (base ++ [c]) rest q.
Proof.
  unfold on_way. split.
  - intros (k & Hk & ->). destruct k as [|k]; [lia|].
    destruct k as [|k].
    + left. done.
    + right. exists (S k). simpl in Hk. split; [lia|].
      by rewrite <- app_assoc.
  - intros [->|(k & Hk & ->)].
    + exists 1%nat. simpl. split; [lia|done].
    + exists (S k). simpl. split; [lia|]. by rewrite <- app_assoc.
Qed.

Lemma on_way_longer base todo q :
  on_way base todo q → (length base < length q)%nat.
Proof.
  intros (k & Hk & ->). rewrite length_app, length_take. lia.
Qed.

Lemma on_way_root abs_dir q :
  on_way [] abs_dir q ↔ q ≠ [] ∧ q `prefix_of` abs_dir.
Proof.
  unfold on_way. simpl. split.
  - intros (k & Hk & ->). split.
    + destruct abs_dir; simpl in *; [lia|]. destruct k; [lia|done].
    + exists (drop k abs_dir). by rewrite take_drop.
  - intros [Hne [l ->]]. exists (length q). split.
    + rewrite length_app. destruct q; [done|]. simpl. lia.
    + by rewrite take_app_length.
Qed.

Lemma makedirs_from_returns base todo m m' :
  makedirs_from base todo m = Returns m' →
  (∀ q, on_way base todo q → m' !! q = Some Dir)
  ∧ (∀ q, ¬ on_way base todo q → m' !! q = m !! q)
  ∧ (∀ q d, on_way base todo q → m !! q ≠ Some (File d)).
Proof.
  revert base m. induction todo as [|c rest IH]; intros base m Hrun.
  - simpl in Hrun. injection Hrun as <-. split_and!; [|done|].
    + intros q (k & Hk & _). simpl in Hk. lia.
    + intros q d (k & Hk & _). simpl in Hk. lia.
  - simpl in Hrun. destruct (m !! (base ++ [c])) as [[d|]|] eqn:Hp;
      [discriminate|..].
    + apply IH in Hrun as (Hdir & Hsame & Hfile). split_and!.
      * intros q [->|Hq]%on_way_cons; [|by apply Hdir].
        rewrite Hsame; [done|]. intros Hq%on_way_longer. lia.
      * intros q Hq. apply Hsame. intros ?. apply Hq, on_way_cons. by right.
      * intros q d [->|Hq]%on_way_cons; [congruence|by apply Hfile].
    + apply IH in Hrun as (Hdir & Hsame & Hfile). split_and!.
      * intros q [->|Hq]%on_way_cons; [|by apply Hdir].
        rewrite Hsame; [by rewrite lookup_insert_eq|].
        intros Hq%on_way_longer. lia.
      * intros q Hq. rewrite Hsame.
        -- rewrite lookup_insert_ne; [done|]. intros <-.
           apply Hq, on_way_cons. by left.
        -- intros ?. apply Hq, on_way_cons. by right.
      * intros q d [->|Hq]%on_way_cons; [congruence|].
        specialize (Hfile q d Hq). rewrite lookup_insert_ne in Hfile; [done|].
        intros <-. apply on_way_longer in Hq. lia.
Qed.

Lemma makedirs_from_succeeds base todo m :
  (∀ q d, on_way base todo q → m !! q ≠ Some (File d)) →
  ∃ m', makedirs_from base todo m = Returns m'.
Proof.
  revert base m. induction todo as [|c rest IH]; intros base m Hfile.
  - by exists m.
  - simpl. destruct (m !! (base ++ [c])) as [[d|]|] eqn:Hp.
    + exfalso. eapply Hfile; [|done]. apply on_way_cons. by left.
    + apply IH. intros q d Hq. apply Hfile, on_way_cons. by right.
    + apply IH. intros q d Hq. rewrite lookup_insert_ne.
      * apply Hfile, on_way_cons. by right.
      * intros <-. apply on_way_longer in Hq. lia.
Qed.

Lemma makedirs_from_existing base todo m :
  (∀ q, on_way base todo q → m !! q = Some Dir) →
  makedirs_from base todo m = Returns m.
Proof.
  revert base. induction todo as [|c rest IH]; intros base Hdir; [done|].
  simpl. rewrite (Hdir (base ++ [c])) by (apply on_way_cons; by left).
  apply IH. intros q Hq. apply Hdir, on_way_cons. by right.
Qed.

Lemma writes_child abs_dir r p : writes abs_dir r p → ∃ name, p = abs_dir ++ [name].
Proof. intros [[_ ->]|(_ & _ & ->)]; eexists; reflexivity. Qed.

Lemma child_ne_dir (dir : path) name : dir ++ [name] ≠ dir.
Proof.
  intros Heq. apply (f_equal length) in Heq.
  rewrite length_app in Heq. simpl in Heq. lia.
Qed.

Lemma is_dir_put m dir name d :
  is_dir (put m (dir ++ [name], d)) dir = is_dir m dir.
Proof.
  unfold is_dir, put. destruct dir as [|c dir]; [done|]. simpl.
  rewrite lookup_insert_ne; [done|]. apply (child_ne_dir (c :: dir)).
Qed.

Lemma put_not_dir m pd q : m !! q ≠ Some Dir → put m pd !! q ≠ Some Dir.
Proof.
  intros Hq. unfold put. destruct (decide (pd.1 = q)) as [<-|Hne].
  - by rewrite lookup_insert_eq.
  - by rewrite lookup_insert_ne.
Qed.

Lemma write_file_returns dir name data w w' :
  write_file dir name data w = Returns w' ↔
    is_dir (fs w) dir = true
    ∧ fs w !! (dir ++ [name]) ≠ Some Dir
    ∧ w' = {| fs := put (fs w) (dir ++ [name], data); stderr := stderr w |}.
Proof.
  unfold write_file. destruct (is_dir (fs w) dir).
  - destruct (fs w !! (dir ++ [name])) as [[d|]|]; split.
    all: try (intros [= <-]; split_and!; done).
    all: try (intros (_ & _ & ->); done).
    intros (_ & ? & _). done.
  - split; [|intros (? & _); done].
    destruct (fs w !! dir) as [[?|]|]; discriminate.
Qed.

(** One turn of the loop either raises or appends the item's lines and
    performs the item's write. *)
Lemma write_one_returns abs_dir verbose r w w' :
  write_one repr abs_dir verbose r w = Returns w' ↔
    (∀ p, writes abs_dir r p →
       is_dir (fs w) abs_dir = true ∧ fs w !! p ≠ Some Dir)
    ∧ w' = written repr abs_dir verbose [r] w.
Proof.
  unfold write_one, written, writes.
  assert (omap (file_of abs_dir) [r] = option_list (file_of abs_dir r)) as ->.
  { unfold omap. simpl. by destruct (file_of abs_dir r). }
  assert (concat (lines_of repr verbose <$> [r]) = lines_of repr verbose r) as ->.
  { simpl. apply app_nil_r. }
  unfold file_of, lines_of.
  destruct (error r) as [e|] eqn:He.
  - destruct (body r) as [|b bs] eqn:Hb.
    + simpl. split.
      * intros [= <-]. split; [|done]. intros p [[? _]|(_ & ? & _)]; done.
      * intros [_ ->]. done.
    + rewrite write_file_returns. simpl. split.
      * intros (Hd & Hp & ->). split; [|done].
        intros p [[? _]|(_ & _ & ->)]; done.
      * intros [Hw ->]. destruct (Hw (err_path abs_dir r)) as [Hd Hp].
        { right. done. }
        done.
  - rewrite write_file_returns. simpl. split.
    + intros (Hd & Hp & ->). split.
      * intros p [[_ ->]|(? & _)]; [|done]. by destruct verbose.
      * destruct verbose; simpl; rewrite ?app_nil_r; done.
    + intros [Hw ->]. destruct (Hw (txt_path abs_dir r)) as [Hd Hp].
      { left. done. }
      destruct verbose; simpl; rewrite ?app_nil_r; done.
Qed.

Lemma written_cons abs_dir verbose r results w :
  written repr abs_dir verbose (r :: results) w
  = written repr abs_dir verbose results (written repr abs_dir verbose [r] w).
Proof.
  unfold written. simpl. rewrite app_nil_r. rewrite <- app_assoc. f_equal.
  unfold omap. simpl. destruct (file_of abs_dir r); done.
Qed.

Lemma written_dir abs_dir verbose results w :
  is_dir (fs (written repr abs_dir verbose results w)) abs_dir = is_dir (fs w) abs_dir.
Proof.
  revert w. induction results as [|r results IH]; intros w; [done|].
  rewrite written_cons, IH. unfold written. simpl.
  unfold omap. simpl. destruct (file_of abs_dir r) as [[p d]|] eqn:Hf; [|done].
  simpl. apply file_of_writes in Hf as [[name ->]%writes_child _].
  apply is_dir_put.
Qed.

Lemma write_all_returns abs_dir verbose results w w' :
  write_all repr abs_dir verbose results w = Returns w' →
  w' = written repr abs_dir verbose results w.
Proof.
  revert w. induction results as [|r results IH]; intros w; simpl.
  - unfold written. simpl. rewrite app_nil_r. destruct w as [m err].
    by intros [= <-].
  - rewrite written_cons.
    destruct (write_one repr abs_dir verbose r w) as [w1|e] eqn:H1;
      [|discriminate].
    simpl. apply write_one_returns in H1 as [_ ->]. apply IH.
Qed.

Lemma write_all_succeeds abs_dir verbose results w :
  is_dir (fs w) abs_dir = true →
  (∀ r p, r ∈ results → writes abs_dir r p → fs w !! p ≠ Some Dir) →
  write_all repr abs_dir verbose results w
  = Returns (written repr abs_dir verbose results w).
Proof.
  revert w. induction results as [|r results IH]; intros w Hd Hp; simpl.
  - unfold written. simpl. rewrite app_nil_r. by destruct w.
  - rewrite written_cons.
    assert (write_one repr abs_dir verbose r w
            = Returns (written repr abs_dir verbose [r] w)) as ->.
    { apply write_one_returns. split; [|done]. intros p Hw. split; [done|].
      eapply Hp; [|done]. rewrite elem_of_cons. by left. }
    simpl. apply IH.
    + by rewrite written_dir.
    + intros r' p Hin Hw. unfold written. simpl. unfold omap. simpl.
      assert (fs w !! p ≠ Some Dir) as Hq.
      { eapply Hp; [|done]. rewrite elem_of_cons. by right. }
      destruct (file_of abs_dir r) as [pd|]; simpl; [|done].
      by apply put_not_dir.
Qed.

(** File names: the item number decides the name, and no [.txt] is an
    [.err]. *)
Lemma str_inj s1 s2 : str s1 = str s2 → s1 = s2.
Proof.
  unfold str. revert s2. induction s1 as [|a s1 IH]; intros [|b s2] Heq;
    simpl in Heq; try done.
  injection Heq as Ha Hs. f_equal; [|by apply IH].
  rewrite <- (ascii_N_embedding a), <- (ascii_N_embedding b). by rewrite Ha.
Qed.

Lemma fmt_int_inj a b : fmt_int a = fmt_int b → a = b.
Proof. intros Heq%str_inj. by apply (inj pretty) in Heq. Qed.

Lemma name_inj a b (ext1 ext2 : string) :
  String.length ext1 = String.length ext2 →
  fmt_int a ++ str ext1 = fmt_int b ++ str ext2 → a = b ∧ ext1 = ext2.
Proof.
  intros Hlen Heq. apply app_inj_2 in Heq as [Ha He].
  - split; [by apply fmt_int_inj | by apply str_inj].
  - unfold str. rewrite !length_fmap.
    clear -Hlen. revert ext2 Hlen.
    induction ext1 as [|c e1 IH]; intros [|c' e2] Hlen; simpl in *; try done.
    f_equal. apply IH. lia.
Qed.

Lemma txt_path_inj abs_dir r r' :
  txt_path abs_dir r = txt_path abs_dir r' → index r' = index r.
Proof.
  unfold txt_path. intros Heq%app_inv_head. injection Heq as Heq.
  apply name_inj in Heq as [? _]; [lia|done].
Qed.

Lemma err_path_inj abs_dir r r' :
  err_path abs_dir r = err_path abs_dir r' → index r' = index r.
Proof.
  unfold err_path. intros Heq%app_inv_head. injection Heq as Heq.
  apply name_inj in Heq as [? _]; [lia|done].
Qed.

Lemma txt_path_ne_err abs_dir r r' : txt_path abs_dir r' ≠ err_path abs_dir r.
Proof.
  unfold txt_path, err_path. intros Heq%app_inv_head. injection Heq as Heq.
  apply name_inj in Heq as [_ ?]; done.
Qed.

(** The lookup of a file after the loop. *)
Lemma omap_file_of_app abs_dir pre r post pd :
  file_of abs_dir r = Some pd →
  omap (file_of abs_dir) (pre ++ r :: post)
  = omap (file_of abs_dir) pre ++ pd :: omap (file_of abs_dir) post.
Proof.
  intros Hf. induction pre as [|r0 pre IH].
  - unfold omap. simpl. by rewrite Hf.
  - change ((r0 :: pre) ++ r :: post) with (r0 :: (pre ++ r :: post)).
    unfold omap in *. simpl. rewrite IH. by destruct (file_of abs_dir r0).
Qed.

Lemma not_written_by abs_dir results q :
  (∀ r, r ∈ results → ¬ writes abs_dir r q) →
  q ∉ (omap (file_of abs_dir) results).*1.
Proof.
  intros Hno ([q' d] & -> & Hin)%list_elem_of_fmap.
  apply list_elem_of_omap in Hin as (r & Hr & Hf).
  apply file_of_writes in Hf as [Hw _]. by apply (Hno r).
Qed.

Lemma written_last abs_dir verbose pre r post w p :
  writes abs_dir r p →
  (∀ r', r' ∈ post → ¬ writes abs_dir r' p) →
  fs (written repr abs_dir verbose (pre ++ r :: post) w) !! p = Some (File (body r)).
Proof.
  intros Hw Hpost. unfold written. simpl. rewrite lookup_puts_last.
  rewrite (omap_file_of_app abs_dir pre r post (p, body r))
    by (by apply file_of_writes).
  rewrite last_put_app_last; [done|]. by apply not_written_by.
Qed.

Lemma written_untouched abs_dir verbose results w q :
  (∀ r, r ∈ results → ¬ writes abs_dir r q) →
  fs (written repr abs_dir verbose results w) !! q = fs w !! q.
Proof.
  intros Hno. unfold written. simpl. rewrite lookup_puts_last.
  apply not_written_by, last_put_None in Hno. by rewrite Hno.
Qed.

Lemma written_stderr abs_dir verbose results w r line :
  r ∈ results → line ∈ lines_of repr verbose r →
  line ∈ stderr (written repr abs_dir verbose results w).
Proof.
  intros Hr Hline. unfold written. simpl. rewrite elem_of_app. right.
  induction results as [|r0 results IH]; [by apply elem_of_nil in Hr|].
  simpl. rewrite elem_of_app. apply elem_of_cons in Hr as [->|Hr].
  - by left.
  - right. by apply IH.
Qed.

(** The directory after [makedirs], and the files it leaves alone. *)
Lemma makedirs_returns abs_dir w w1 :
  makedirs abs_dir w = Returns w1 →
  is_dir (fs w1) abs_dir = true
  ∧ stderr w1 = stderr w
  ∧ (∀ q, on_way [] abs_dir q → fs w1 !! q = Some Dir)
  ∧ (∀ q, ¬ q `prefix_of` abs_dir → fs w1 !! q = fs w !! q).
Proof.
  unfold makedirs. destruct (makedirs_from [] abs_dir (fs w)) as [m1|e] eqn:Hm;
    [|discriminate].
  simpl. intros [= <-]. simpl.
  apply makedirs_from_returns in Hm as (Hdir & Hsame & _).
  split_and!; [|done|done|].
  - unfold is_dir. destruct abs_dir as [|c rest]; [done|].
    rewrite Hdir; [done|]. apply on_way_root. done.
  - intros q Hq. apply Hsame. intros [_ ?]%on_way_root. done.
Qed.

Lemma child_not_prefix (dir : path) name : ¬ (dir ++ [name]) `prefix_of` dir.
Proof.
  intros [l Heq]. apply (f_equal length) in Heq.
  rewrite !length_app in Heq. simpl in Heq. lia.
Qed.

Lemma written_target_is_file abs_dir verbose results w r p :
  r ∈ results → writes abs_dir r p →
  ∃ d, fs (written repr abs_dir verbose results w) !! p = Some (File d).
Proof.
  intros Hr Hw. unfold written. simpl. rewrite lookup_puts_last.
  destruct (last_put p (omap (file_of abs_dir) results)) as [d|] eqn:Hl;
    [by exists d|].
  exfalso. apply last_put_None in Hl. apply Hl.
  apply list_elem_of_fmap. exists (p, body r). split; [done|].
  apply list_elem_of_omap. exists r. split; [done|]. by apply file_of_writes.
Qed.

(** C5.  In a file system where nothing stands in the way (no regular file
    on the path of the directory, no directory where a file is to go), the
    writer returns the resolved directory, and after it: an item without
    error has its body, byte for byte, in [<index+1>.txt]; an item with an
    error has its diagnostic line (item number, [repr] of the input, the
    error) on the error stream, leaves [<index+1>.txt] as it was, has its
    body in [<index+1>.err] when the body is not empty and leaves
    [<index+1>.err] as it was when it is empty.  Where several items carry
    the same index the last one to write a file decides its content, and a
    file is left as it was when no item writes it. *)
Theorem write_batch_output_to_dir_files :
  ∀ (now : pystr) (results : list BatchResult) (output_dir : option pystr)
    (verbose : bool) (w : world),
    let abs_dir := resolve (output_dir_or_default output_dir now) in
    (∀ q d, q `prefix_of` abs_dir → fs w !! q ≠ Some (File d)) →
    (∀ r p, r ∈ results → writes abs_dir r p → fs w !! p ≠ Some Dir) →
    ∃ w',
      write_batch_output_to_dir resolve repr now results output_dir verbose w
        = Returns (abs_dir, w')
      ∧ is_dir (fs w') abs_dir = true
      ∧ (∀ pre r post, results = pre ++ r :: post → error r = None →
           (∀ r', r' ∈ post → error r' = None → index r' ≠ index r) →
           fs w' !! txt_path abs_dir r = Some (File (body r)))
      ∧ (∀ pre r post e, results = pre ++ r :: post → error r = Some e →
           item_error_line repr (index r + 1) r e ∈ stderr w'
           ∧ ((∀ r', r' ∈ results → error r' = None → index r' ≠ index r) →
                fs w' !! txt_path abs_dir r = fs w !! txt_path abs_dir r)
           ∧ (body r ≠ [] →
                (∀ r', r' ∈ post → error r' ≠ None → body r' ≠ [] →
                       index r' ≠ index r) →
                fs w' !! err_path abs_dir r = Some (File (body r)))
           ∧ (body r = [] →
                (∀ r', r' ∈ results → error r' ≠ None → body r' ≠ [] →
                       index r' ≠ index r) →
                fs w' !! err_path abs_dir r = fs w !! err_path abs_dir r)).
Proof.
  intros now results output_dir verbose w abs_dir Hway Htargets.
  unfold write_batch_output_to_dir. fold abs_dir.
  destruct (makedirs_from_succeeds [] abs_dir (fs w)) as [m1 Hm1].
  { intros q d [_ Hq]%on_way_root. by apply Hway. }
  assert (makedirs abs_dir w = Returns {| fs := m1; stderr := stderr w |}) as Hmk.
  { unfold makedirs. by rewrite Hm1. }
  rewrite Hmk. simpl.
  apply makedirs_returns in Hmk as (Hdir & _ & _ & Hsame). simpl in Hdir, Hsame.
  assert (∀ name, m1 !! (abs_dir ++ [name]) = fs w !! (abs_dir ++ [name])) as Hchild.
  { intros name. apply Hsame, child_not_prefix. }
  rewrite write_all_succeeds; [|done|].
  2:{ intros r p Hr Hw. simpl. destruct (writes_child _ _ _ Hw) as [name ->].
      rewrite Hchild. by apply Htargets with r. }
  simpl. eexists. split; [done|]. split_and!.
  - by rewrite written_dir.
  - intros pre r post -> He Hlast. apply written_last.
    + by left.
    + intros r' Hr' [[He' Hp]|(_ & _ & Hp)].
      * apply txt_path_inj in Hp. by apply (Hlast r').
      * by apply txt_path_ne_err in Hp.
  - intros pre r post e -> He. split_and!.
    + eapply written_stderr with (r := r).
      * rewrite elem_of_app, elem_of_cons. right. by left.
      * unfold lines_of. rewrite He. rewrite elem_of_cons. by left.
    + intros Hno. rewrite written_untouched.
      * simpl. apply Hchild.
      * intros r' Hr' [[He' Hp]|(_ & _ & Hp)].
        -- apply txt_path_inj in Hp. by apply (Hno r').
        -- by apply txt_path_ne_err in Hp.
    + intros Hb Hlast. apply written_last.
      * right. split_and!; [congruence|done..].
      * intros r' Hr' [[_ Hp]|(He' & Hb' & Hp)].
        -- symmetry in Hp. by apply txt_path_ne_err in Hp.
        -- apply err_path_inj in Hp. by apply (Hlast r').
    + intros Hb Hno. rewrite written_untouched.
      * simpl. apply Hchild.
      * intros r' Hr' [[_ Hp]|(He' & Hb' & Hp)].
        -- symmetry in Hp. by apply txt_path_ne_err in Hp.
        -- apply err_path_inj in Hp. by apply (Hno r').
Qed.

(** C8.  When a call with an explicit directory has succeeded, a second call
    with the same results and the same directory succeeds too (the directory
    that now exists is accepted), returns the same path, and leaves the file
    system exactly as the first call left it: every file is overwritten with
    the content it already has and no other file appears. *)
Theorem write_batch_output_to_dir_twice :
  ∀ (now1 now2 : pystr) (results : list BatchResult) (dir : pystr)
    (verbose : bool) (w w1 : world) (p1 : path),
    dir ≠ [] →
    write_batch_output_to_dir resolve repr now1 results (Some dir) verbose w
      = Returns (p1, w1) →
    ∃ w2,
      write_batch_output_to_dir resolve repr now2 results (Some dir) verbose w1
        = Returns (p1, w2)
      ∧ fs w2 = fs w1.
Proof.
  intros now1 now2 results dir verbose w w1 p1 Hdir Hfirst.
  unfold write_batch_output_to_dir in *.
  assert (∀ now, output_dir_or_default (Some dir) now = dir) as Hexplicit.
  { intros now. by destruct dir. }
  rewrite Hexplicit in *. set (abs_dir := resolve dir) in *.
  destruct (makedirs abs_dir w) as [wa|e] eqn:Hmk; [|discriminate].
  simpl in Hfirst.
  destruct (write_all repr abs_dir verbose results wa) as [wb|e] eqn:Hwr;
    [|discriminate].
  simpl in Hfirst. injection Hfirst as <- <-.
  apply makedirs_returns in Hmk as (Hisdir & _ & Hdirs & _).
  apply write_all_returns in Hwr as ->.
  assert (makedirs abs_dir (written repr abs_dir verbose results wa)
          = Returns (written repr abs_dir verbose results wa)) as ->.
  { unfold makedirs. rewrite makedirs_from_existing; [done|].
    intros q Hq. rewrite written_untouched; [by apply Hdirs|].
    intros r _ [name ->]%writes_child.
    apply on_way_root in Hq as [_ Hq]. by apply child_not_prefix in Hq. }
  simpl. rewrite write_all_succeeds.
  - simpl. eexists. split; [done|]. unfold written at 1. simpl.
    apply puts_idempotent.
  - by rewrite written_dir.
  - intros r p Hr Hw.
    destruct (written_target_is_file abs_dir verbose results wa r p Hr Hw)
      as [d ->]. done.
Qed.

End WriterProperties.

(** ** Properties of the input loader *)

Section Loader.
Import Os Batch Text.

Variable resolve : pystr → path.

Lemma lstrip_spec s :
  ∃ pre, s = pre ++ lstrip s
         ∧ Forall (λ c, isspace c = true) pre
         ∧ (∀ c, head (lstrip s) = Some c → isspace c = false).
Proof.
  induction s as [|c s (pre & Hs & Hpre & Hhead)]; simpl.
  - exists []. split_and!; [done|constructor|done].
  - destruct (isspace c) eqn:Hc.
    + exists (c :: pre). split_and!; [by rewrite Hs at 1|by constructor|done].
    + exists []. split_and!; [done|constructor|].
      intros c' [= <-]. done.
Qed.

Lemma rstrip_spec s :
  ∃ post, s = rstrip s ++ post
          ∧ Forall (λ c, isspace c = true) post
          ∧ (∀ c, last (rstrip s) = Some c → isspace c = false).
Proof.
  unfold rstrip. destruct (lstrip_spec (reverse s)) as (pre & Hs & Hpre & Hhead).
  exists (reverse pre). split_and!.
  - rewrite <- reverse_app, <- Hs. by rewrite reverse_involutive.
  - by apply Forall_reverse.
  - intros c. rewrite last_reverse. apply Hhead.
Qed.

Lemma strip_trimmed line : trimmed line (strip line).
Proof.
  unfold strip, trimmed.
  destruct (lstrip_spec line) as (pre & Hline & Hpre & Hhead).
  destruct (rstrip_spec (lstrip line)) as (post & Ht & Hpost & Hlast).
  exists pre, post. split_and!; try done.
  - by rewrite <- Ht.
  - intros c Hc. destruct (rstrip (lstrip line)) as [|c0 t] eqn:Hr; [done|].
    injection Hc as ->. apply Hhead. by rewrite Ht.
Qed.

Lemma stripped_lines_kept f :
  stripped_lines f = filter (λ l, l ≠ []) (strip <$> f).
Proof.
  induction f as [|line f IH]; [done|].
  cbn [stripped_lines]. rewrite IH, fmap_cons, filter_cons.
  destruct (strip line) as [|c t].
  - by rewrite decide_False by (intros ?; done).
  - by rewrite decide_True.
Qed.

(** A text of whitespace has only lines of whitespace, which the loader
    drops. *)
Lemma translate_newlines_space text :
  Forall (λ c, isspace c = true) text →
  Forall (λ c, isspace c = true) (translate_newlines text).
Proof.
  remember (length text) as n eqn:Hn.
  assert (length text ≤ n)%nat as Hlen by lia. clear Hn.
  revert text Hlen. induction n as [|n IH]; intros text Hlen Hall.
  - destruct text; [constructor|simpl in Hlen; lia].
  - destruct text as [|c rest]; [constructor|].
    inversion Hall as [|? ? Hc Hrest]; subst. simpl in Hlen.
    cbn [translate_newlines]. destruct (c =? 13)%N.
    + destruct rest as [|c2 rest']; [by repeat constructor|].
      destruct (c2 =? 10)%N; constructor; try done.
      * apply IH; [simpl in Hlen; lia|]. by inversion Hrest.
      * apply IH; [lia|done].
    + constructor; [done|]. apply IH; [lia|done].
Qed.

Lemma lines_from_space cur s :
  Forall (λ c, isspace c = true) cur →
  Forall (λ c, isspace c = true) s →
  Forall (Forall (λ c, isspace c = true)) (lines_from cur s).
Proof.
  revert cur. induction s as [|c s IH]; intros cur Hcur Hs; simpl.
  - destruct cur; [constructor|]. constructor; [done|constructor].
  - inversion Hs as [|? ? Hc Hrest]; subst.
    assert (Forall (λ c, isspace c = true) (cur ++ [c])) as Hcur'.
    { apply Forall_app. split; [done|]. by repeat constructor. }
    destruct (c =? 10)%N.
    + constructor; [done|]. apply IH; [constructor|done].
    + by apply IH.
Qed.

Lemma lstrip_space s : Forall (λ c, isspace c = true) s → lstrip s = [].
Proof.
  induction 1 as [|c s Hc _ IH]; simpl; [done|]. by rewrite Hc.
Qed.

Lemma strip_space s : Forall (λ c, isspace c = true) s → strip s = [].
Proof. intros Hs. unfold strip. by rewrite lstrip_space. Qed.

Lemma kept_lines_space text :
  Forall (λ c, isspace c = true) text → kept_lines text = [].
Proof.
  intros Htext. unfold kept_lines, file_lines.
  assert (Forall (Forall (λ c, isspace c = true))
            (lines_from [] (translate_newlines text))) as Hlines.
  { apply lines_from_space; [constructor|]. by apply translate_newlines_space. }
  induction Hlines as [|line f Hline _ IH]; [done|].
  rewrite fmap_cons, filter_cons. rewrite (strip_space line Hline).
  by rewrite decide_False by (intros ?; done).
Qed.

(** C6.  For a file that opens and decodes, [read_input_file] returns the
    lines of the file in order, each trimmed of the whitespace around it,
    without those that become empty; it raises the empty-input [ValueError]
    exactly when no line remains, which is the case of an empty file and of
    a file of whitespace. *)
Theorem read_input_file_lines :
  ∀ (path : pystr) (w : world) (text : pystr),
    read_text (resolve path) w = Returns text →
    (kept_lines text ≠ [] →
       read_input_file resolve path w = Returns (kept_lines text))
    ∧ (kept_lines text = [] →
       read_input_file resolve path w = Raises (ValueError (no_lines_msg path)))
    ∧ (raises (read_input_file resolve path w) ↔ kept_lines text = [])
    ∧ (∀ line, trimmed line (strip line))
    ∧ (Forall (λ c, isspace c = true) text → kept_lines text = []).
Proof.
  intros path w text Hread. unfold read_input_file. rewrite Hread. simpl.
  rewrite stripped_lines_kept. fold (kept_lines text).
  split_and!.
  - intros Hne. by destruct (kept_lines text).
  - intros ->. done.
  - destruct (kept_lines text) as [|l ls]; split; try done.
    + intros _. by eexists.
    + intros [e He]. discriminate.
  - apply strip_trimmed.
  - apply kept_lines_space.
Qed.

End Loader.

(** ** The decoder never runs out of fuel *)

Section Decoder.
Import Json.

Lemma skip_ws_length s : (length (skip_ws s) ≤ length s)%nat.
Proof.
  induction s as [|c s IH]; simpl; [lia|]. destruct (is_ws c); simpl; lia.
Qed.

Lemma expect_length c s r : expect c s = Some r → length s = S (length r).
Proof.
  destruct s as [|x s]; simpl; [done|].
  destruct (x =? c)%N; [|done]. by intros [= ->].
Qed.

Lemma starts_with_length lit s rest :
  starts_with lit s = Some rest → length s = (length lit + length rest)%nat.
Proof.
  revert s. induction lit as [|a lit IH]; intros s; simpl.
  - by intros [= ->].
  - destruct s as [|c s]; [done|]. destruct (a =? c)%N; [|done].
    intros H%IH. simpl. lia.
Qed.

Lemma digits_length s ds rest :
  digits s = (ds, rest) → length s = (length ds + length rest)%nat.
Proof.
  revert ds rest. induction s as [|c s IH]; intros ds rest; simpl.
  - by intros [= <- <-].
  - destruct (is_digit c).
    + destruct (digits s) as [ds' rest'] eqn:Hd. intros [= <- <-].
      simpl. rewrite (IH ds' rest' eq_refl). lia.
    + intros [= <- <-]. simpl. lia.
Qed.

Lemma scanstring_shorter n :
  ∀ s acc k rest,
    (length s ≤ n)%nat → scanstring s acc = Some (k, rest) →
    (length rest < length s)%nat.
Proof.
  induction n as [|n IH]; intros s acc k rest Hlen Hscan.
  - destruct s; [done|simpl in Hlen; lia].
  - destruct s as [|c r]; [done|]. cbn [scanstring] in Hscan.
    repeat case_match; simplify_eq.
    all: try (apply IH in Hscan; [|simpl in Hlen |- *; lia]).
    all: simpl in *; lia.
Qed.

Lemma sign_length s neg s1 : sign s = (neg, s1) → (length s1 ≤ length s)%nat.
Proof.
  unfold sign. destruct (expect 45 s) as [r|] eqn:He; intros [= <- <-].
  - apply expect_length in He. lia.
  - lia.
Qed.

Lemma integer_digits_length s ids s2 :
  integer_digits s = Some (ids, s2) → (length s2 < length s)%nat.
Proof.
  unfold integer_digits. destruct s as [|c r]; [done|].
  destruct (c =? 48)%N; [intros [= <- <-]; simpl; lia|].
  destruct (is_digit c) eqn:Hc; [|done].
  intros [= Hd]. simpl in Hd. rewrite Hc in Hd.
  destruct (digits r) as [ds rest] eqn:Hr. injection Hd as <- <-.
  apply digits_length in Hr. simpl. lia.
Qed.

Lemma fraction_digits_length s fds s3 :
  fraction_digits s = (fds, s3) → (length s3 ≤ length s)%nat.
Proof.
  unfold fraction_digits. destruct (expect 46 s) as [r|] eqn:He.
  - apply expect_length in He.
    destruct (digits r) as [[|d ds] rest] eqn:Hr; intros [= <- <-]; [lia|].
    apply digits_length in Hr. lia.
  - intros [= <- <-]. lia.
Qed.

Lemma exponent_length s exp s4 :
  exponent s = (exp, s4) → (length s4 ≤ length s)%nat.
Proof.
  unfold exponent. destruct s as [|e r]; [by intros [= <- <-]|].
  destruct ((e =? 101)%N || (e =? 69)%N); [|by intros [= <- <-]].
  destruct (expect 45 r) as [r1|] eqn:H45.
  - apply expect_length in H45.
    destruct (digits r1) as [[|d ds] rest] eqn:Hr; intros [= <- <-]; [lia|].
    apply digits_length in Hr. simpl. lia.
  - destruct (expect 43 r) as [r1|] eqn:H43.
    + apply expect_length in H43.
      destruct (digits r1) as [[|d ds] rest] eqn:Hr; intros [= <- <-]; [lia|].
      apply digits_length in Hr. simpl. lia.
    + destruct (digits r) as [[|d ds] rest] eqn:Hr; intros [= <- <-]; [lia|].
      apply digits_length in Hr. simpl. lia.
Qed.

Lemma match_number_shorter s v rest :
  match_number s = Some (v, rest) → (length rest < length s)%nat.
Proof.
  unfold match_number. destruct (sign s) as [neg s1] eqn:Hs.
  destruct (integer_digits s1) as [[ids s2]|] eqn:Hi; [|done].
  destruct (fraction_digits s2) as [fds s3] eqn:Hf.
  destruct (exponent s3) as [exp s4] eqn:He.
  apply sign_length in Hs. apply integer_digits_length in Hi.
  apply fraction_digits_length in Hf. apply exponent_length in He.
  destruct fds, exp; intros [= <- <-]; lia.
Qed.

(** A value that is scanned takes at least one character, and with a fuel
    above twice the length of the text no call is left without fuel. *)
Lemma scan_fuel fuel :
  (∀ s, (2 * length s < fuel)%nat →
     scan_once fuel s ≠ TooDeep
     ∧ ∀ v rest, scan_once fuel s = Ok v rest → (length rest < length s)%nat)
  ∧ (∀ acc s, (2 * length s < fuel)%nat →
       parse_members fuel acc s ≠ TooDeep
       ∧ ∀ v rest, parse_members fuel acc s = Ok v rest →
                   (length rest < length s)%nat)
  ∧ (∀ acc s, (2 * length s + 1 < fuel)%nat →
       parse_elements fuel acc s ≠ TooDeep
       ∧ ∀ v rest, parse_elements fuel acc s = Ok v rest →
                   (length rest < length s)%nat).
Proof.
  induction fuel as [|fuel (IHscan & IHmem & IHelt)].
  { split_and!; intros; lia. }
  split_and!.
  - intros s Hfuel. destruct s as [|c r]; [done|]. simpl in Hfuel.
    pose proof (skip_ws_length r) as Hws.
    cbn [scan_once].
    destruct (c =? 34)%N.
    { destruct (scanstring r []) as [[k rest]|] eqn:Hstr; [|done].
      split; [done|]. intros v rest' [= <- <-].
      apply (scanstring_shorter (length r)) in Hstr; simpl; lia. }
    destruct (c =? 123)%N.
    { destruct (expect 125 (skip_ws r)) as [rest|] eqn:He.
      - apply expect_length in He. split; [done|].
        intros v rest' [= <- <-]. simpl. lia.
      - destruct (IHmem ∅ (skip_ws r)) as [Hdeep Hlen]; [lia|].
        split; [done|]. intros v rest Hok. apply Hlen in Hok. simpl. lia. }
    destruct (c =? 91)%N.
    { destruct (expect 93 (skip_ws r)) as [rest|] eqn:He.
      - apply expect_length in He. split; [done|].
        intros v rest' [= <- <-]. simpl. lia.
      - destruct (IHelt [] (skip_ws r)) as [Hdeep Hlen]; [lia|].
        split; [done|]. intros v rest Hok. apply Hlen in Hok. simpl. lia. }
    repeat match goal with
    | |- context [starts_with ?lit ?t] =>
        let H := fresh "Hlit" in
        destruct (starts_with lit t) eqn:H;
          [apply starts_with_length in H; simpl in H|]
    | |- context [match_number ?t] =>
        let H := fresh "Hnum" in
        destruct (match_number t) as [[??]|] eqn:H;
          [apply match_number_shorter in H; simpl in H|]
    end.
    all: split; [done|]; intros v' rest' Hok; simplify_eq; simpl; lia.
  - intros acc s Hfuel. cbn [parse_members].
    destruct (expect 34 s) as [r|] eqn:Hq; [|done].
    apply expect_length in Hq.
    destruct (scanstring r []) as [[key r1]|] eqn:Hstr; [|done].
    apply (scanstring_shorter (length r)) in Hstr; [|lia].
    pose proof (skip_ws_length r1) as Hws1.
    destruct (expect 58 (skip_ws r1)) as [r2|] eqn:Hc; [|done].
    apply expect_length in Hc.
    pose proof (skip_ws_length r2) as Hws2.
    destruct (IHscan (skip_ws r2)) as [Hdeep Hlen]; [lia|].
    destruct (scan_once fuel (skip_ws r2)) as [v r3| |] eqn:Hv; [|done..].
    specialize (Hlen v r3 eq_refl).
    pose proof (skip_ws_length r3) as Hws3.
    destruct (expect 125 (skip_ws r3)) as [rest|] eqn:Hend.
    { apply expect_length in Hend. split; [done|].
      intros v' rest' [= <- <-]. lia. }
    destruct (expect 44 (skip_ws r3)) as [r4|] eqn:Hcomma; [|done].
    apply expect_length in Hcomma.
    pose proof (skip_ws_length r4) as Hws4.
    destruct (IHmem (<[key := v]> acc) (skip_ws r4)) as [Hdeep' Hlen']; [lia|].
    split; [done|]. intros v' rest' Hok. apply Hlen' in Hok. lia.
  - intros acc s Hfuel. cbn [parse_elements].
    destruct (IHscan s) as [Hdeep Hlen]; [lia|].
    destruct (scan_once fuel s) as [v r1| |] eqn:Hv; [|done..].
    specialize (Hlen v r1 eq_refl).
    pose proof (skip_ws_length r1) as Hws1.
    destruct (expect 93 (skip_ws r1)) as [rest|] eqn:Hend.
    { apply expect_length in Hend. split; [done|].
      intros v' rest' [= <- <-]. lia. }
    destruct (expect 44 (skip_ws r1)) as [r2|] eqn:Hcomma; [|done].
    apply expect_length in Hcomma.
    pose proof (skip_ws_length r2) as Hws2.
    destruct (IHelt (acc ++ [v]) (skip_ws r2)) as [Hdeep' Hlen']; [lia|].
    split; [done|]. intros v' rest' Hok. apply Hlen' in Hok. lia.
Qed.

(** [decode] answers with a value or with [JSONDecodeError]. *)
Lemma decode_fuel s :
  (∃ v, decode s = Returns v) ∨ decode s = Raises JSONDecodeError.
Proof.
  unfold decode.
  destruct (scan_fuel (2 * length s + 2)) as (Hscan & _ & _).
  destruct (Hscan (skip_ws s)) as [Hdeep _].
  { pose proof (skip_ws_length s). lia. }
  destruct (scan_once _ _) as [v rest| |]; [|by right|done].
  destruct (skip_ws rest); [left; by eexists|by right].
Qed.

End Decoder.

(** ** Properties of the usage parser *)

Section UsageParser.
Import Batch Json Client.

Lemma first_present_cons P key keys d :
  first_present P (key :: keys) d
  = if P (present d key) then Some (present d key) else first_present P keys d.
Proof.
  unfold first_present. rewrite fmap_cons, filter_cons.
  destruct (P (present d key)) eqn:HP.
  - by rewrite decide_True.
  - by rewrite decide_False by (intros ?; done).
Qed.

Lemma first_present_Some P keys d v :
  first_present P keys d = Some v →
  ∃ key, key ∈ keys ∧ v = present d key ∧ P v = true.
Proof.
  induction keys as [|key keys IH]; [done|].
  rewrite first_present_cons. destruct (P (present d key)) eqn:HP.
  - intros [= <-]. exists key. split_and!; [|done..]. rewrite elem_of_cons. by left.
  - intros (k & Hk & Hv)%IH. exists k. split; [|done]. rewrite elem_of_cons. by right.
Qed.

Lemma first_present_ext P Q keys d :
  (∀ key, key ∈ keys → P (present d key) = Q (present d key)) →
  first_present P keys d = first_present Q keys d.
Proof.
  induction keys as [|key keys IH]; intros Hext; [done|].
  rewrite !first_present_cons, <- Hext by (rewrite elem_of_cons; by left).
  rewrite IH; [done|]. intros k Hk. apply Hext. rewrite elem_of_cons. by right.
Qed.

Lemma concurrency_loop_first d keys out :
  concurrency_loop (Obj d) keys out
  = match first_present concurrency_test keys d with
    | Some v => let* n := int_of v in Returns (<[str "max_concurrency" := n]> out)
    | None => Returns out
    end.
Proof.
  induction keys as [|key keys IH]; [done|].
  rewrite first_present_cons. cbn [concurrency_loop get bind].
  fold (present d key). by destruct (concurrency_test (present d key)).
Qed.

Lemma credits_loop_first d keys out :
  credits_loop (Obj d) keys out
  = match first_present credits_test keys d with
    | Some v => let* n := int_of v in Returns (inl (<[str "credits" := n]> out))
    | None => Returns (inr out)
    end.
Proof.
  induction keys as [|key keys IH]; [done|].
  rewrite first_present_cons. cbn [credits_loop get bind].
  fold (present d key). by destruct (credits_test (present d key)).
Qed.

Lemma set_max_concurrency n mc cr :
  <[str "max_concurrency" := n]> (usage_info mc cr) = usage_info n cr.
Proof.
  unfold usage_info. rewrite insert_insert_ne by (vm_compute; discriminate).
  by rewrite insert_insert_eq.
Qed.

Lemma set_credits c mc cr :
  <[str "credits" := c]> (usage_info mc cr) = usage_info mc c.
Proof. unfold usage_info. by rewrite insert_insert_eq. Qed.

(** The numbers the tests let through. *)
Lemma int_of_part v z : int_of v = Returns z → int_part v = z.
Proof. unfold int_part. by intros ->. Qed.

Lemma compare_Gt a b : (a ?= b) = Gt ↔ b < a.
Proof. rewrite Z.compare_gt_iff. lia. Qed.

Lemma compare_le a b :
  Some (a ?= b) = Some Lt ∨ Some (a ?= b) = Some Eq → a ≤ b.
Proof.
  intros [[= H]|[= H]].
  - rewrite Z.compare_lt_iff in H. lia.
  - rewrite Z.compare_eq_iff in H. lia.
Qed.

Lemma compare_ge a b :
  Some (a ?= b) = Some Gt ∨ Some (a ?= b) = Some Eq → b ≤ a.
Proof.
  intros [[= H]|[= H]].
  - rewrite compare_Gt in H. lia.
  - rewrite Z.compare_eq_iff in H. lia.
Qed.

Lemma int_lt_iff v k :
  int_lt k v = true ↔ compare_int v k = Some Gt.
Proof.
  unfold int_lt. destruct (compare_int v k) as [[]|]; split; done.
Qed.

Lemma le_int_iff v k :
  le_int v k = true ↔ compare_int v k = Some Lt ∨ compare_int v k = Some Eq.
Proof.
  unfold le_int. destruct (compare_int v k) as [[]|]; split; try done.
  all: try (intros [?|?]; done). all: by (intros _; (by left) || (by right)).
Qed.

Lemma ge_int_iff v k :
  ge_int v k = true ↔ compare_int v k = Some Gt ∨ compare_int v k = Some Eq.
Proof.
  unfold ge_int. destruct (compare_int v k) as [[]|]; split; try done.
  all: try (intros [?|?]; done). all: by (intros _; (by left) || (by right)).
Qed.

(** The exact value of a finite float against an integer. *)
Lemma float_compare_finite s m e k c :
  float_compare_int (S754_finite s m e) k = c →
  let v := if s then Z.neg m else Z.pos m in
  (0 ≤ e ∧ c = Some (v * 2 ^ e ?= k)) ∨ (e < 0 ∧ c = Some (v ?= k * 2 ^ (- e))).
Proof.
  unfold float_compare_int. destruct (decide (0 ≤ e)); intros <-; simpl.
  - by left.
  - right. split; [lia|done].
Qed.

Lemma int_of_finite s m e :
  int_of_float (S754_finite s m e)
  = Returns (let a := if decide (0 ≤ e) then Z.pos m * 2 ^ e
                      else Z.pos m / 2 ^ (- e) in
             if s then - a else a).
Proof. done. Qed.

Lemma concurrency_test_bounds v :
  concurrency_test v = true → ∃ n, int_of v = Returns n ∧ 0 ≤ n ≤ 10000.
Proof.
  unfold concurrency_test.
  intros [[[_ Hnum]%andb_prop Hlt%int_lt_iff]%andb_prop Hle%le_int_iff]%andb_prop.
  destruct v as [|b|z|f|?|?|?]; try done.
  - exists (if b then 1 else 0). split; [done|].
    unfold compare_int in Hlt. injection Hlt as Hlt%compare_Gt.
    destruct b; lia.
  - exists z. split; [done|].
    unfold compare_int in *. injection Hlt as Hlt%compare_Gt.
    apply compare_le in Hle. lia.
  - unfold compare_int in *. destruct f as [s|s| |s m e].
    + simpl in Hlt. discriminate.
    + destruct s; [done|]. by destruct Hle.
    + done.
    + cbn [int_of]. rewrite int_of_finite.
      eexists. split; [done|].
      assert (0 ≤ e → 0 < 2 ^ e) as Hp1 by (intros; apply Z.pow_pos_nonneg; lia).
      assert (e < 0 → 0 < 2 ^ (- e)) as Hp2 by (intros; apply Z.pow_pos_nonneg; lia).
      destruct (float_compare_finite s m e 0 _ eq_refl) as [[He Hc]|[He Hc]];
        rewrite Hc in Hlt; injection Hlt as Hlt%compare_Gt.
      all: destruct s; [nia|].
      all: destruct (float_compare_finite false m e 10000 _ eq_refl)
             as [[He' Hc']|[He' Hc']]; try lia.
      all: rewrite Hc' in Hle; apply compare_le in Hle.
      * rewrite decide_True by lia. lia.
      * rewrite decide_False by lia.
        split; [apply Z.div_pos; lia|].
        apply Z.div_le_upper_bound; lia.
Qed.

Lemma credits_test_bounds v n :
  credits_test v = true → int_of v = Returns n → 0 ≤ n.
Proof.
  unfold credits_test.
  intros [[_ Hnum]%andb_prop Hge%ge_int_iff]%andb_prop Hint.
  destruct v as [|b|z|f|?|?|?]; try done.
  - injection Hint as <-. by destruct b.
  - injection Hint as <-. unfold compare_int in Hge.
    by apply compare_ge in Hge.
  - unfold compare_int in Hge. cbn [int_of] in Hint.
    destruct f as [s|s| |s m e]; try done.
    + by injection Hint as <-.
    + rewrite int_of_finite in Hint. injection Hint as <-.
      assert (0 ≤ e → 0 < 2 ^ e) as Hp1 by (intros; apply Z.pow_pos_nonneg; lia).
      assert (e < 0 → 0 < 2 ^ (- e)) as Hp2 by (intros; apply Z.pow_pos_nonneg; lia).
      destruct (float_compare_finite s m e 0 _ eq_refl) as [[He Hc]|[He Hc]];
        rewrite Hc in Hge; apply compare_ge in Hge.
      all: destruct s; [nia|].
      * rewrite decide_True by lia. nia.
      * rewrite decide_False by lia. apply Z.div_pos; lia.
Qed.

Lemma int_of_finite_numeric v :
  numeric v = true → finite v = true → int_of v = Returns (int_part v).
Proof.
  unfold int_part. destruct v as [|b|z|f|?|?|?]; try done.
  by destruct f.
Qed.

Lemma tests_agree_concurrency v :
  not_bool v = true → concurrency_test v = in_range v.
Proof. by destruct v. Qed.

Lemma tests_agree_credits v :
  not_bool v = true → credits_test v = non_negative v.
Proof. by destruct v. Qed.

Lemma numeric_isinstance v :
  not_bool v = true → isinstance_int_float v = numeric v.
Proof. by destruct v. Qed.

(** What [parse_usage] computes on a document that is an object. *)
Lemma parse_usage_object json_loads body d :
  json_loads body = Returns (Obj d) →
  parse_usage json_loads body
  = let* out := concurrency_loop (Obj d) concurrency_keys (usage_info 5 0) in
    let* r := credits_loop (Obj d) credit_keys out in
    match r with
    | inl out => Returns out
    | inr out => credits_fallback (Obj d) out
    end.
Proof. intros Hd. unfold parse_usage. by rewrite Hd. Qed.

Lemma parse_usage_not_object json_loads body v :
  json_loads body = Returns v → (∀ d, v ≠ Obj d) →
  parse_usage json_loads body = Raises AttributeError.
Proof.
  intros Hv Hno. unfold parse_usage. rewrite Hv.
  destruct v; try done. by destruct (Hno m).
Qed.

(** Whatever the decoder, a usage dictionary that is returned holds a
    concurrency limit between 0 and 10000 and credits that are not
    negative. *)
Lemma parse_usage_bounds json_loads body u :
  parse_usage json_loads body = Returns u →
  ∃ mc cr, u = usage_info mc cr ∧ 0 ≤ mc ≤ 10000 ∧ 0 ≤ cr.
Proof.
  destruct (json_loads body) as [v|e] eqn:Hload.
  2:{ unfold parse_usage. rewrite Hload. destruct e; try done.
      intros [= <-]. exists 5, 0. split; [done|lia]. }
  assert ((∃ d, v = Obj d) ∨ (∀ d, v ≠ Obj d)) as [[d ->]|Hno].
  { destruct v; try (by right). left. by eexists. }
  2:{ by rewrite (parse_usage_not_object _ _ v). }
  rewrite (parse_usage_object _ _ d Hload).
  rewrite concurrency_loop_first.
  assert (∃ mc, 0 ≤ mc ≤ 10000 ∧
            match first_present concurrency_test concurrency_keys d with
            | Some v => let* n := int_of v in
                        Returns (<[str "max_concurrency" := n]> (usage_info 5 0))
            | None => Returns (usage_info 5 0)
            end = Returns (usage_info mc 0)) as (mc & Hmc & ->).
  { destruct (first_present _ _ d) as [v|] eqn:Hfirst.
    - apply first_present_Some in Hfirst as (_ & _ & _ & Htest).
      apply concurrency_test_bounds in Htest as (n & -> & Hn).
      exists n. split; [done|]. simpl. by rewrite set_max_concurrency.
    - exists 5. split; [lia|done]. }
  cbn [bind]. rewrite credits_loop_first.
  destruct (first_present credits_test credit_keys d) as [v|] eqn:Hfirst.
  - apply first_present_Some in Hfirst as (_ & _ & _ & Htest).
    destruct (int_of v) as [c|e] eqn:Hint; [|done].
    simpl. rewrite set_credits. intros [= <-].
    exists mc, c. split_and!; [done|lia|lia|].
    by apply (credits_test_bounds v).
  - cbn [bind]. unfold credits_fallback. cbn [get bind].
    destruct (isinstance_int_float _ && isinstance_int_float _).
    2:{ intros [= <-]. exists mc, 0. split; [done|lia]. }
    destruct (int_of (default Null (d !! str "max_api_credit"))) as [a|?]; [|done].
    destruct (int_of (default Null (d !! str "used_api_credit"))) as [b|?]; [|done].
    cbn [bind]. destruct (decide (0 ≤ a - b)).
    + rewrite set_credits. intros [= <-]. exists mc, (a - b). split; [done|lia].
    + intros [= <-]. exists mc, 0. split; [done|lia].
Qed.

(** C4, as amended.  A body on which decoding fails with [JSONDecodeError]
    yields the defaults.  A body that decodes to an object which holds, under
    the recognised names, no boolean, no number strictly between 0 and 1
    under a concurrency alias and no infinity or NaN under a credit name,
    yields: as [max_concurrency] the integer part of the first present
    numeric value in (0, 10000] among the concurrency aliases, 5 when there
    is none; as [credits] the integer part of the first present numeric
    value >= 0 among the credit aliases, else
    [int(max_api_credit) - int(used_api_credit)] when both are numeric and
    the difference is >= 0, else 0. *)
Theorem parse_usage_extracts :
  ∀ (json_loads : bytes → result value) (body : bytes),
    (json_loads body = Raises JSONDecodeError →
       parse_usage json_loads body = Returns (usage_info 5 0))
    ∧ (∀ d, json_loads body = Returns (Obj d) → regular d = true →
         parse_usage json_loads body
         = Returns (usage_info (converted_max_concurrency d) (converted_credits d))).
Proof.
  intros json_loads body. split.
  { intros Hload. unfold parse_usage. by rewrite Hload. }
  intros d Hload [Hconc Hcred]%andb_prop.
  rewrite forallb_forall in Hconc. rewrite forallb_forall in Hcred.
  assert (∀ key, key ∈ concurrency_keys → not_bool (present d key) = true)
    as Hnb1.
  { intros key Hkey%list_elem_of_In. by apply Hconc, andb_prop in Hkey as [? _]. }
  assert (∀ key, key ∈ credit_keys ++ ["max_api_credit"; "used_api_credit"]%string →
            not_bool (present d key) = true ∧ finite (present d key) = true)
    as Hcr.
  { intros key Hkey%list_elem_of_In. by apply Hcred, andb_prop in Hkey. }
  rewrite (parse_usage_object _ _ d Hload).
  rewrite concurrency_loop_first.
  rewrite (first_present_ext concurrency_test in_range)
    by (intros key Hkey; by apply tests_agree_concurrency, Hnb1).
  assert (match first_present in_range concurrency_keys d with
          | Some v => let* n := int_of v in
                      Returns (<[str "max_concurrency" := n]> (usage_info 5 0))
          | None => Returns (usage_info 5 0)
          end = Returns (usage_info (converted_max_concurrency d) 0)) as ->.
  { unfold converted_max_concurrency, claimed_max_concurrency.
    destruct (first_present in_range concurrency_keys d) as [v|] eqn:Hfirst;
      [|done].
    apply first_present_Some in Hfirst as (key & Hkey & -> & Htest).
    rewrite <- tests_agree_concurrency in Htest by by apply Hnb1.
    apply concurrency_test_bounds in Htest as (n & Hint & _).
    rewrite Hint. simpl. rewrite set_max_concurrency.
    by rewrite (int_of_part _ _ Hint). }
  cbn [bind]. rewrite credits_loop_first.
  rewrite (first_present_ext credits_test non_negative).
  2:{ intros key Hkey. apply tests_agree_credits, Hcr.
      rewrite elem_of_app. by left. }
  unfold converted_credits.
  destruct (first_present non_negative credit_keys d) as [v|] eqn:Hfirst.
  - apply first_present_Some in Hfirst as (key & Hkey & -> & Htest).
    rewrite int_of_finite_numeric.
    + simpl. by rewrite set_credits.
    + by apply andb_prop in Htest as [? _].
    + apply Hcr. rewrite elem_of_app. by left.
  - cbn [bind]. unfold credits_fallback. cbn [get bind].
    fold (present d "max_api_credit") (present d "used_api_credit").
    destruct (Hcr "max_api_credit"%string) as [Hnba Hfa].
    { rewrite elem_of_app. right. rewrite !elem_of_cons. by left. }
    destruct (Hcr "used_api_credit"%string) as [Hnbb Hfb].
    { rewrite elem_of_app. right. rewrite !elem_of_cons. right. by left. }
    rewrite !numeric_isinstance by done.
    destruct (numeric (present d "max_api_credit")) eqn:Hna; [|done].
    destruct (numeric (present d "used_api_credit")) eqn:Hnb; [|done].
    rewrite !int_of_finite_numeric by done. cbn [bind andb].
    destruct (decide _) as [Hge|Hlt].
    + rewrite set_credits. by rewrite (proj2 (Z.leb_le _ _) Hge).
    + by rewrite (proj2 (Z.leb_gt _ _)) by lia.
Qed.

(** C10.  [parse_usage] falls back to the defaults, with no document to read
    them from, only when decoding fails: a body that decodes to anything but
    an object makes it raise [AttributeError], and whenever it returns, the
    decoder has either raised [JSONDecodeError], the result being the
    defaults, or returned an object.  The bodies [[]] and [3] decode and
    make it raise. *)
Theorem parse_usage_non_object_raises :
  (∀ (json_loads : bytes → result value) (body : bytes),
     (∀ v, json_loads body = Returns v → (∀ d, v ≠ Obj d) →
        parse_usage json_loads body = Raises AttributeError)
     ∧ (∀ u, parse_usage json_loads body = Returns u →
          (json_loads body = Raises JSONDecodeError ∧ u = usage_info 5 0)
          ∨ (∃ d, json_loads body = Returns (Obj d))))
  ∧ Json.loads (json_text "[]") = Returns (Arr [])
  ∧ parse_usage Json.loads (json_text "[]") = Raises AttributeError
  ∧ Json.loads (json_text "3") = Returns (Int 3)
  ∧ parse_usage Json.loads (json_text "3") = Raises AttributeError.
Proof.
  split_and!; try (vm_compute; reflexivity).
  intros json_loads body. split.
  - intros v. apply parse_usage_not_object.
  - intros u. unfold parse_usage.
    destruct (json_loads body) as [v|e] eqn:Hload.
    + destruct v; try done. intros _. right. by eexists.
    + destruct e; try done. intros [= <-]. by left.
Qed.

(** C7, at the input on which it fails: a concurrency limit of [0.5] passes
    the test [0 < v <= 10000] and [int] makes it 0, which
    [resolve_batch_concurrency] hands on when no concurrency is requested.
    What holds of every dictionary returned: the limit is between 0 and
    10000 and the credits are not negative; and a positive request is
    returned verbatim. *)
Theorem parse_usage_zero_concurrency :
  parse_usage Json.loads (json_text "{'max_concurrency': 0.5}")
    = Returns (usage_info 0 0)
  ∧ resolve_batch_concurrency 0 (usage_info 0 0) 1 = 0
  ∧ (∀ (json_loads : bytes → result value) (body : bytes) u,
       parse_usage json_loads body = Returns u →
       ∃ mc cr, u = usage_info mc cr ∧ 0 ≤ mc ≤ 10000 ∧ 0 ≤ cr)
  ∧ (∀ requested usage n,
       (0 < requested → resolve_batch_concurrency requested usage n = requested)
       ∧ (requested ≤ 0 → resolve_batch_concurrency requested usage n
                          = usage_get usage "max_concurrency" 5)).
Proof.
  split_and!.
  - vm_compute. reflexivity.
  - vm_compute. reflexivity.
  - apply parse_usage_bounds.
  - intros requested usage n. unfold resolve_batch_concurrency. split; intros H.
    + by rewrite decide_True by lia.
    + by rewrite decide_False by lia.
Qed.

End UsageParser.

(** C4 as stated fails where the value found is not an integer: of the body
    [{"max_concurrency": 2.5}] the specification names [2.5] as the limit,
    the code returns [int(2.5)], which is 2. *)
Lemma parse_usage_truncates :
  ∃ d,
    Json.loads (json_text "{'max_concurrency': 2.5}") = Returns (Json.Obj d)
    ∧ Client.claimed_max_concurrency d
      = Json.Float (S754_finite false 5629499534213120 (-51))
    ∧ Client.parse_usage Json.loads (json_text "{'max_concurrency': 2.5}")
      = Returns (Batch.usage_info 2 0)
    ∧ Json.compare_int (Client.claimed_max_concurrency d) 2 = Some Gt.
Proof.
  eexists. split_and!.
  - vm_compute. reflexivity.
  - vm_compute. reflexivity.
  - vm_compute. reflexivity.
  - vm_compute. reflexivity.
Qed.

(** ** Instances *)

(** The writer example of the specification: [1.txt] holds [OK], there is no
    [2.txt], and no [2.err] since the body of the failed item is empty. *)
Lemma write_batch_output_to_dir_files_witness :
  let abs_dir := [str "home"; str "out"] in
  ∃ w',
    Batch.write_batch_output_to_dir sample_resolve sample_repr (str "20260101_000000")
      sample_results (Some (str "out")) false empty_world = Returns (abs_dir, w')
    ∧ Os.fs w' !! (abs_dir ++ [str "1.txt"]) = Some (Os.File (Batch.body ok_result))
    ∧ Os.fs w' !! (abs_dir ++ [str "2.txt"]) = None
    ∧ Os.fs w' !! (abs_dir ++ [str "2.err"]) = None
    ∧ str "Item 2 ('b'): boom" ∈ Os.stderr w'.
Proof.
  intros abs_dir.
  destruct (write_batch_output_to_dir_files sample_resolve sample_repr
              (str "20260101_000000") sample_results (Some (str "out")) false
              empty_world) as (w' & Hrun & _ & Hok & Hfailed).
  - intros q d _. simpl. rewrite lookup_empty. discriminate.
  - intros r p _ _. simpl. rewrite lookup_empty. discriminate.
  - exists w'. split; [exact Hrun|].
    destruct (Hfailed [ok_result] failed_result []
                {| exc_class := str "RuntimeError"; exc_str := str "boom" |}
                eq_refl eq_refl) as (Hline & Htxt & _ & Herr).
    split_and!.
    + apply (Hok [] ok_result [failed_result] eq_refl eq_refl).
      intros r' Hr'. apply list_elem_of_singleton in Hr' as ->. discriminate.
    + rewrite <- (lookup_empty (M := gmap (list (list N)))
                    (A := Os.node) (abs_dir ++ [str "2.txt"])).
      apply Htxt. intros r' Hr'. unfold sample_results in Hr'.
      rewrite !elem_of_cons in Hr'. destruct Hr' as [->|[->|Hr']].
      * intros _. discriminate.
      * discriminate.
      * by apply elem_of_nil in Hr'.
    + rewrite <- (lookup_empty (M := gmap (list (list N)))
                    (A := Os.node) (abs_dir ++ [str "2.err"])).
      apply Herr; [reflexivity|]. intros r' Hr'. unfold sample_results in Hr'.
      rewrite !elem_of_cons in Hr'. destruct Hr' as [->|[->|Hr']].
      * intros Hne. by destruct Hne.
      * intros _ Hne. by destruct Hne.
      * by apply elem_of_nil in Hr'.
    + exact Hline.
Defined.

Lemma write_batch_output_to_dir_twice_witness :
  ∃ p1 w1 w2,
    Batch.write_batch_output_to_dir sample_resolve sample_repr (str "20260101_000000")
      sample_results (Some (str "out")) true empty_world = Returns (p1, w1)
    ∧ Batch.write_batch_output_to_dir sample_resolve sample_repr (str "20260101_000007")
        sample_results (Some (str "out")) true w1 = Returns (p1, w2)
    ∧ Os.fs w2 = Os.fs w1.
Proof.
  edestruct (write_batch_output_to_dir_twice sample_resolve sample_repr
               (str "20260101_000000") (str "20260101_000007") sample_results
               (str "out") true empty_world) as (w2 & Hsecond & Hsame).
  - discriminate.
  - vm_compute. reflexivity.
  - eexists _, _, w2. split_and!; [|exact Hsecond|exact Hsame].
    vm_compute. reflexivity.
Defined.

(** The loader example of the specification. *)
Lemma read_input_file_lines_witness :
  Batch.read_input_file sample_resolve (str "inputs.txt") sample_input_world
  = Returns [str "a"; str "b"].
Proof.
  assert (Os.read_text (sample_resolve (str "inputs.txt")) sample_input_world
          = Returns [32; 32; 97; 32; 10; 10; 32; 98; 10; 9; 10]%N) as Hread
    by (vm_compute; reflexivity).
  destruct (read_input_file_lines sample_resolve (str "inputs.txt")
              sample_input_world _ Hread) as (Hkept & _).
  apply Hkept. vm_compute. discriminate.
Defined.

(** The usage examples of the specification. *)
Lemma parse_usage_extracts_witness :
  Client.parse_usage Json.loads
    (json_text "{'concurrent_requests': 20, 'credits_remaining': 150}")
    = Returns (Batch.usage_info 20 150)
  ∧ Client.parse_usage Json.loads
      (json_text "{'max_api_credit': 1000, 'used_api_credit': 400}")
    = Returns (Batch.usage_info 5 600)
  ∧ Client.parse_usage Json.loads (json_text "not json")
    = Returns (Batch.usage_info 5 0).
Proof.
  split_and!.
  - eapply eq_trans.
    + eapply (proj2 (parse_usage_extracts Json.loads _)).
      * vm_compute. reflexivity.
      * vm_compute. reflexivity.
    + vm_compute. reflexivity.
  - eapply eq_trans.
    + eapply (proj2 (parse_usage_extracts Json.loads _)).
      * vm_compute. reflexivity.
      * vm_compute. reflexivity.
    + vm_compute. reflexivity.
  - apply (proj1 (parse_usage_extracts Json.loads _)).
    vm_compute. reflexivity.
Defined.

(** ** Properties of the key lookup and of the request parameters *)

Section KeyAndRequests.
Import Config Http Cli.

(** X1.  [get_api_key] prefers a non-empty flag to the environment, takes a
    non-empty [SCRAPINGBEE_API_KEY] otherwise, raises [ValueError] exactly
    when both are missing or empty, and never returns an empty key. *)
Theorem get_api_key_precedence :
  ∀ (environ : gmap (list N) (list N)) (flag_value : option pystr),
    let flag := default [] flag_value in
    let env := default [] (environ !! str ENV_API_KEY) in
    (flag ≠ [] → get_api_key environ flag_value = Returns flag)
    ∧ (flag = [] → env ≠ [] → get_api_key environ flag_value = Returns env)
    ∧ (raises (get_api_key environ flag_value) ↔ flag = [] ∧ env = [])
    ∧ (flag = [] → env = [] →
         get_api_key environ flag_value = Raises (ValueError no_api_key_msg))
    ∧ (∀ key, get_api_key environ flag_value = Returns key → key ≠ []).
Proof.
  intros environ flag_value flag env. subst flag env. unfold get_api_key, raises.
  destruct flag_value as [[|c v]|]; simpl;
    destruct (environ !! str ENV_API_KEY) as [[|c' k]|]; simpl.
  all: split_and!; try done.
  all: try (intros _ _; done).
  all: try (split; [intros [e He]; done | intros [? ?]; done]).
  all: try (split; [intros _; done | intros _; by eexists]).
  all: try (intros key [= <-]; done).
Qed.

Lemma lookup_setdefault d k v j :
  setdefault d k v !! j
  = if decide (k = j) then Some (default v (d !! k)) else d !! j.
Proof.
  unfold setdefault. destruct (d !! k) as [x|] eqn:Hk.
  - destruct (decide (k = j)) as [<-|]; [by rewrite Hk|done].
  - destruct (decide (k = j)) as [<-|].
    + by rewrite lookup_insert_eq.
    + by rewrite lookup_insert_ne.
Qed.

Lemma lookup_filter_sendable (params : gmap (list N) param) k :
  filter (λ kv, sendable kv.2 = true) params !! k
  = match params !! k with
    | Some v => if sendable v then Some v else None
    | None => None
    end.
Proof.
  rewrite map_lookup_filter. destruct (params !! k) as [v|]; simpl; [|done].
  destruct (sendable v) eqn:Hs.
  - by rewrite option_guard_True.
  - by rewrite option_guard_False by (simpl; congruence).
Qed.

(** X2.  The parameters [_get] sends: under [api_key], the caller's value if
    it is neither [None] nor empty and the key of the client otherwise;
    under any other name, the caller's value if it is neither [None] nor
    empty and nothing otherwise.  With a client whose key is not empty, no
    [None] and no empty string is ever sent. *)
Theorem request_params_sent :
  ∀ (c : Client) (params : gmap (list N) param),
    let sent := request_params c params in
    let kept k := match params !! k with
                  | Some v => if sendable v then Some v else None
                  | None => None
                  end in
    sent !! str "api_key" = Some (default (PStr (api_key c)) (kept (str "api_key")))
    ∧ (∀ k, k ≠ str "api_key" → sent !! k = kept k)
    ∧ (api_key c ≠ [] → ∀ k v, sent !! k = Some v → sendable v = true).
Proof.
  intros c params sent kept. subst sent kept. unfold request_params.
  assert (∀ k, k ≠ str "api_key" →
            setdefault (filter (λ kv, sendable kv.2 = true) params)
              (str "api_key") (PStr (api_key c)) !! k
            = match params !! k with
              | Some v => if sendable v then Some v else None
              | None => None
              end) as Hother.
  { intros k Hk. rewrite lookup_setdefault, decide_False by done.
    apply lookup_filter_sendable. }
  split_and!.
  - rewrite lookup_setdefault, decide_True by done.
    by rewrite lookup_filter_sendable.
  - done.
  - intros Hkey k v. destruct (decide (k = str "api_key")) as [->|Hk].
    + rewrite lookup_setdefault, decide_True by done.
      rewrite lookup_filter_sendable. intros [= <-].
      destruct (params !! str "api_key") as [v|]; simpl.
      * destruct (sendable v) eqn:Hs; simpl; [done|].
        by destruct (api_key c).
      * by destruct (api_key c).
    + rewrite Hother by done. destruct (params !! k) as [v'|]; [|done].
      destruct (sendable v') eqn:Hs; [|done]. by intros [= <-].
Qed.

End KeyAndRequests.

(** ** Properties of the usage query and of the run it allows *)

Section UsageQuery.
Import Config Http Cli Batch.

Variable environ : gmap (list N) (list N).
Variable session_get : pystr → gmap (list N) param → Z → reply.
Variable json_loads : bytes → result Json.value.

Lemma base_url_kept : rstrip_slash (str BASE_URL) = str BASE_URL.
Proof. reflexivity. Qed.

(** The one request [get_batch_usage] makes with a key that is not empty. *)
Lemma usage_request key :
  key ≠ [] →
  usage session_get (new_client key (str BASE_URL) 150)
  = session_get (str BASE_URL ++ str "/usage")
      {[ str "api_key" := PStr key ]} 150.
Proof.
  intros Hkey. unfold usage, _get, new_client. simpl. rewrite base_url_kept.
  f_equal. apply map_eq. intros k. unfold request_params. simpl.
  rewrite lookup_setdefault, !lookup_filter_sendable.
  destruct (decide (str "api_key" = k)) as [<-|Hk].
  - rewrite lookup_singleton_eq. by destruct key.
  - by rewrite lookup_singleton_ne.
Qed.

(** X3.  [get_batch_usage] asks for the key first and fails with its
    [ValueError] whatever the transport would answer; with a key it sends
    one request, to [BASE_URL/usage] with the key as only parameter; an
    exception of the transport is passed on, a status other than 200 is a
    [RuntimeError] naming it, and on 200 the result is that of [parse_usage]
    on the body.  A dictionary it returns has a limit between 0 and 10000
    and credits that are not negative. *)
Theorem get_batch_usage_outcomes :
  ∀ (api_key_flag : option pystr),
    let request key := session_get (str BASE_URL ++ str "/usage")
                         {[ str "api_key" := PStr key ]} 150 in
    (∀ e, get_api_key environ api_key_flag = Raises e →
       get_batch_usage environ session_get json_loads api_key_flag
       = Failed (Exn e))
    ∧ (∀ key, get_api_key environ api_key_flag = Returns key →
         match request key with
         | Throws e =>
             get_batch_usage environ session_get json_loads api_key_flag
             = Failed (Thrown e)
         | Response body _ code =>
             (code ≠ 200 →
                get_batch_usage environ session_get json_loads api_key_flag
                = Failed (RuntimeError (str "usage API returned HTTP " ++ fmt_int code)))
             ∧ (code = 200 →
                  get_batch_usage environ session_get json_loads api_key_flag
                  = lift (Client.parse_usage json_loads body))
         end)
    ∧ (∀ u, get_batch_usage environ session_get json_loads api_key_flag = Fine u →
         ∃ mc cr, u = usage_info mc cr ∧ 0 ≤ mc ≤ 10000 ∧ 0 ≤ cr).
Proof.
  intros api_key_flag request. unfold get_batch_usage.
  destruct (get_api_key environ api_key_flag) as [key|e] eqn:Hkey.
  - assert (key ≠ []) as Hne.
    { unfold get_api_key in Hkey.
      destruct api_key_flag as [[|c v]|];
        destruct (environ !! str ENV_API_KEY) as [[|c' k]|];
        simplify_eq; done. }
    simpl. rewrite (usage_request key Hne). fold (request key).
    split_and!; [done| |].
    + intros key' [= <-]. destruct (request key) as [body hdrs code|e]; [|done].
      split; intros Hcode.
      * by rewrite decide_True.
      * by rewrite decide_False by (intros ?; done).
    + intros u. destruct (request key) as [body hdrs code|e]; [|done].
      destruct (decide (code ≠ 200)); [done|].
      destruct (Client.parse_usage json_loads body) as [u'|e] eqn:Hparse; [|done].
      intros [= <-]. by apply (parse_usage_bounds json_loads body).
  - simpl. split_and!; [by intros e' [= <-]|done|done].
Qed.


End UsageQuery.

(** ** When the executor fails *)

Section ExecutorFailure.
Import Batch.

Lemma run_batch_zero order inputs fn :
  run_batch order inputs 0 fn = run_batch order inputs 1 fn.
Proof. reflexivity. Qed.

Lemma run_batch_nonneg order inputs (concurrency : Z) fn :
  inputs ≠ [] → 0 ≤ concurrency → schedule inputs order →
  run_batch order inputs concurrency fn = Returns (imap (expected_result fn) inputs).
Proof.
  intros Hne Hc Hsched. destruct (decide (concurrency = 0)) as [->|Hpos].
  - rewrite run_batch_zero. by apply run_batch_schedule.
  - apply run_batch_schedule; [done|lia|done].
Qed.



End ExecutorFailure.

(** ** What the writer leaves alone; the executor and the writer together *)

Section WriterFrame.
Import Os Batch.

Variable resolve : pystr → path.
Variable repr : pystr → pystr.

(** The writer as [makedirs] followed by the writes of the items. *)
Lemma write_batch_output_to_dir_returns now results output_dir verbose w p w' :
  write_batch_output_to_dir resolve repr now results output_dir verbose w
    = Returns (p, w') →
  p = resolve (output_dir_or_default output_dir now)
  ∧ ∃ w1, makedirs p w = Returns w1
          ∧ write_all repr p verbose results w1 = Returns w'
          ∧ w' = written repr p verbose results w1.
Proof.
  unfold write_batch_output_to_dir.
  set (abs_dir := resolve (output_dir_or_default output_dir now)).
  destruct (makedirs abs_dir w) as [w1|e] eqn:Hmk; [|done]. simpl.
  destruct (write_all repr abs_dir verbose results w1) as [w2|e] eqn:Hwr; [|done].
  simpl. intros [= <- <-]. split; [done|]. exists w1. split_and!; [done..|].
  by apply write_all_returns.
Qed.


(** No item writes where a directory is. *)
Lemma write_all_returns_targets abs_dir verbose results w w' :
  write_all repr abs_dir verbose results w = Returns w' →
  ∀ r p, r ∈ results → writes abs_dir r p → fs w !! p ≠ Some Dir.
Proof.
  revert w. induction results as [|r0 results IH]; intros w Hrun r p Hr Hw.
  { by apply elem_of_nil in Hr. }
  simpl in Hrun.
  destruct (write_one repr abs_dir verbose r0 w) as [w1|e] eqn:H1; [|done].
  simpl in Hrun. apply write_one_returns in H1 as [Hr0 ->].
  apply elem_of_cons in Hr as [->|Hr]; [by apply Hr0|].
  specialize (IH _ Hrun r p Hr Hw). intros Hdir. apply IH.
  unfold written. simpl. unfold omap. simpl.
  destruct (file_of abs_dir r0) as [[p0 d0]|] eqn:Hf; simpl; [|done].
  unfold put. simpl. destruct (decide (p0 = p)) as [->|Hne].
  - apply file_of_writes in Hf as [Hw0 _]. by destruct (Hr0 p Hw0) as [_ ?].
  - by rewrite lookup_insert_ne.
Qed.

Lemma written_by_some abs_dir results q d :
  last_put q (omap (file_of abs_dir) results) = Some d →
  ∃ r, r ∈ results ∧ writes abs_dir r q.
Proof.
  intros Hlast.
  destruct (decide (q ∈ (omap (file_of abs_dir) results).*1)) as [Hin|Hnin].
  - apply list_elem_of_fmap in Hin as ([q' d'] & -> & Hin).
    apply list_elem_of_omap in Hin as (r & Hr & Hf).
    apply file_of_writes in Hf as [Hw _]. by exists r.
  - apply last_put_None in Hnin. congruence.
Qed.

Lemma makedirs_off_way abs_dir w w1 :
  makedirs abs_dir w = Returns w1 →
  ∀ q, ¬ on_way [] abs_dir q → fs w1 !! q = fs w !! q.
Proof.
  unfold makedirs.
  destruct (makedirs_from [] abs_dir (fs w)) as [m1|e] eqn:Hm; [|done].
  simpl. intros [= <-]. simpl.
  by apply makedirs_from_returns in Hm as (_ & Hsame & _).
Qed.

(** X6.  A call of the writer that returns has changed nothing but the
    directory, the directories on the way to it and the files its items are
    written to: any other path holds what it held; no entry has gone; a
    directory is still a directory; the directory and those on the way to it
    exist; and the error stream has only grown at its end. *)
Theorem write_batch_output_to_dir_frame :
  ∀ (now : pystr) (results : list BatchResult) (output_dir : option pystr)
    (verbose : bool) (w w' : world) (p : path),
    write_batch_output_to_dir resolve repr now results output_dir verbose w
      = Returns (p, w') →
    p = resolve (output_dir_or_default output_dir now)
    ∧ (∀ q, ¬ q `prefix_of` p → (∀ r, r ∈ results → ¬ writes p r q) →
         fs w' !! q = fs w !! q)
    ∧ (∀ q, q ≠ [] → q `prefix_of` p → fs w' !! q = Some Dir)
    ∧ (∀ q, is_Some (fs w !! q) → is_Some (fs w' !! q))
    ∧ (∀ q, fs w !! q = Some Dir → fs w' !! q = Some Dir)
    ∧ stderr w `prefix_of` stderr w'.
Proof.
  intros now results output_dir verbose w w' p
    (Hp & w1 & Hmk & Hwr & ->)%write_batch_output_to_dir_returns.
  pose proof (write_all_returns_targets _ _ _ _ _ Hwr) as Htargets.
  pose proof (makedirs_off_way _ _ _ Hmk) as Hsame.
  apply makedirs_returns in Hmk as (Hisdir & Herr & Hdirs & _).
  assert (∀ q, is_Some (fs w !! q) → is_Some (fs w1 !! q)) as Hsome1.
  { intros q Hq. destruct (decide (q ≠ [] ∧ q `prefix_of` p)) as [Hway|Hoff].
    - rewrite Hdirs; [by eexists|]. by apply on_way_root.
    - rewrite Hsame; [done|]. by intros ?%on_way_root. }
  assert (∀ q, fs w !! q = Some Dir → fs w1 !! q = Some Dir) as Hkeep1.
  { intros q Hq. destruct (decide (q ≠ [] ∧ q `prefix_of` p)) as [Hway|Hoff].
    - apply Hdirs. by apply on_way_root.
    - rewrite Hsame; [done|]. by intros ?%on_way_root. }
  split_and!; [done| | | | |].
  - intros q Hnpre Hno. rewrite written_untouched by done.
    apply Hsame. by intros [_ ?]%on_way_root.
  - intros q Hq Hpre. rewrite written_untouched.
    + apply Hdirs, on_way_root. done.
    + intros r _ [name ->]%writes_child. by apply child_not_prefix in Hpre.
  - intros q Hq%Hsome1. unfold written. simpl. rewrite lookup_puts_last.
    by destruct (last_put q _).
  - intros q Hq%Hkeep1. unfold written. simpl. rewrite lookup_puts_last.
    destruct (last_put q _) as [d|] eqn:Hlast; [|done].
    apply written_by_some in Hlast as (r & Hr & Hw).
    by destruct (Htargets r q Hr Hw).
  - unfold written. simpl. rewrite <- Herr. by apply prefix_app_r.
Qed.

Lemma lines_of_quiet results :
  (∀ r, r ∈ results → error r = None) →
  concat (lines_of repr false <$> results) = [].
Proof.
  induction results as [|r results IH]; intros Hok; [done|].
  rewrite fmap_cons. cbn [concat].
  rewrite IH by (intros r' Hr'; apply Hok; rewrite elem_of_cons; by right).
  unfold lines_of. by rewrite Hok by (rewrite elem_of_cons; by left).
Qed.

Lemma lines_of_quiet_length results :
  length (concat (lines_of repr false <$> results))
  = length (filter (λ r, error r ≠ None) results).
Proof.
  induction results as [|r results IH]; [done|].
  rewrite fmap_cons, filter_cons. cbn [concat]. rewrite length_app, IH.
  unfold lines_of. destruct (error r) as [e|].
  - by rewrite decide_True.
  - by rewrite decide_False by (intros ?; done).
Qed.

Lemma lines_of_verbose_length results :
  length (concat (lines_of repr true <$> results)) = length results.
Proof.
  induction results as [|r results IH]; [done|].
  rewrite fmap_cons. cbn [concat length]. rewrite length_app, IH.
  unfold lines_of. by destruct (error r).
Qed.

(** X13.  A call of the writer that returns has added to the error stream,
    after what was there, the lines of its items in the order of the
    results: one line for each item with an error, and one for each item
    without when [verbose] is set.  So a quiet run without failures prints
    nothing, and a verbose run prints one line for each item. *)
Theorem write_batch_output_to_dir_stderr :
  ∀ (now : pystr) (results : list BatchResult) (output_dir : option pystr)
    (verbose : bool) (w w' : world) (p : path),
    write_batch_output_to_dir resolve repr now results output_dir verbose w
      = Returns (p, w') →
    stderr w' = stderr w ++ concat (lines_of repr verbose <$> results)
    ∧ (verbose = false → (∀ r, r ∈ results → error r = None) →
         stderr w' = stderr w)
    ∧ (verbose = false →
         length (stderr w')
         = (length (stderr w)
            + length (filter (λ r, error r ≠ None) results))%nat)
    ∧ (verbose = true →
         length (stderr w') = (length (stderr w) + length results)%nat).
Proof.
  intros now results output_dir verbose w w' p
    (Hp & w1 & Hmk & Hwr & ->)%write_batch_output_to_dir_returns.
  apply makedirs_returns in Hmk as (_ & Herr & _).
  assert (stderr (written repr p verbose results w1)
          = stderr w ++ concat (lines_of repr verbose <$> results)) as Hlines.
  { unfold written. simpl. by rewrite Herr. }
  rewrite Hlines. split_and!; [done| | |].
  - intros -> Hok. by rewrite lines_of_quiet, app_nil_r.
  - intros ->. by rewrite length_app, lines_of_quiet_length.
  - intros ->. by rewrite length_app, lines_of_verbose_length.
Qed.






End WriterFrame.

(** ** Properties of the batch branch of a command *)

Section BatchBranch.
Import Config Http Cli Os Batch.

Variable environ : gmap (list N) (list N).
Variable session_get : pystr → gmap (list N) param → Z → reply.
Variable json_loads : bytes → result Json.value.
Variable resolve : pystr → path.
Variable repr : pystr → pystr.

Lemma read_input_file_nonempty input_file w inputs :
  read_input_file resolve input_file w = Returns inputs → inputs ≠ [].
Proof.
  unfold read_input_file. destruct (read_text _ w) as [text|e]; [|done]. simpl.
  destruct (stripped_lines _) as [|l ls]; [done|]. by intros [= <-].
Qed.

Lemma get_batch_usage_bounds api_key_flag u :
  get_batch_usage environ session_get json_loads api_key_flag = Fine u →
  ∃ mc cr, u = usage_info mc cr ∧ 0 ≤ mc ≤ 10000 ∧ 0 ≤ cr.
Proof.
  unfold get_batch_usage.
  destruct (get_api_key environ api_key_flag) as [key|e]; [|done]. simpl.
  destruct (usage session_get _) as [body hdrs code|e]; [|done].
  destruct (decide (code ≠ 200)); [done|].
  destruct (Client.parse_usage json_loads body) as [u'|e] eqn:Hparse; [|done].
  intros [= <-]. by apply (parse_usage_bounds json_loads body).
Qed.

(** [batch_output_dir or ""] of the group callback followed by [... or None]
    of the command and [output_dir or default] of the writer. *)
Lemma flag_or_default batch_output_dir now :
  output_dir_or_default
    (or_none match batch_output_dir with Some (c :: d) => c :: d | _ => [] end) now
  = output_dir_or_default batch_output_dir now.
Proof. by destruct batch_output_dir as [[|c d]|]. Qed.

Lemma guarded_reply call inp :
  match call inp with
  | Response data _ code =>
      (guarded call inp).1.1 = data ∧ (guarded call inp).1.2 = code
      ∧ ((guarded call inp).2 = None ↔ code < 400)
  | Throws e => guarded call inp = ([], 0, Some e)
  end.
Proof.
  unfold guarded. destruct (call inp) as [data hdrs code|e]; [|done].
  destruct (decide (400 ≤ code)); simpl; split_and!; try done.
  all: split; intros ?; try done; lia.
Qed.

(** X8.  The batch branch of a command, once the input file has been read,
    the usage query has answered and the pre-flight checks have passed:
    whatever the requested concurrency, a negative one included, and
    whatever the completion order, the executor does not fail; the branch
    is the writer applied to one record for each input line, in the order
    of the lines, under the folder of [--batch-output-dir] as the writer
    reads it (the default folder when the flag is missing or empty); and
    the record of a line is a success exactly when the request answered
    with a status below 400, a raised exception giving an empty body and
    status 0. *)
Theorem batch_branch_after_preflight :
  ∀ (order : list nat) (now : pystr) (api_key output_file : option pystr)
    (verbose : bool) (batch_output_dir : option pystr) (requested : Z)
    (input_file : pystr) (call : pystr → reply) (w : world)
    (inputs : list pystr) (usage_info : gmap (list N) Z),
    let obj := cli api_key output_file verbose batch_output_dir requested in
    read_input_file resolve input_file w = Returns inputs →
    get_batch_usage environ session_get json_loads api_key = Fine usage_info →
    validate_batch_run requested (Z.of_nat (length inputs)) usage_info = Returns tt →
    schedule inputs order →
    let results := imap (expected_result (guarded call)) inputs in
    run_batch order inputs
      (resolve_batch_concurrency requested usage_info (Z.of_nat (length inputs)))
      (guarded call) = Returns results
    ∧ batch_branch environ session_get json_loads resolve repr order now obj
        input_file call w
      = match write_batch_output_to_dir resolve repr now results
                batch_output_dir verbose w with
        | Returns (p, w') =>
            Fine (str "Batch complete. Output written to " ++ path_str p, w')
        | Raises e => Failed (Exn e)
        end
    ∧ length results = length inputs
    ∧ ∀ k inp, inputs !! k = Some inp →
        ∃ r, results !! k = Some r
             ∧ index r = Z.of_nat k ∧ input r = inp
             ∧ match call inp with
               | Response data _ code =>
                   body r = data ∧ status_code r = code
                   ∧ (error r = None ↔ code < 400)
               | Throws e =>
                   body r = [] ∧ status_code r = 0 ∧ error r = Some e
               end.
Proof.
  intros order now api_key output_file verbose batch_output_dir requested
    input_file call w inputs usage obj Hread Husage Hvalid Hsched results.
  pose proof (read_input_file_nonempty _ _ _ Hread) as Hne.
  destruct (get_batch_usage_bounds _ _ Husage) as (mc & cr & -> & Hmc & Hcr).
  assert (int_or requested 0 = requested) as Hreq.
  { unfold int_or. by destruct (decide (requested = 0)). }
  subst obj.
  assert (run_batch order inputs
            (resolve_batch_concurrency requested (Batch.usage_info mc cr)
               (Z.of_nat (length inputs))) (guarded call) = Returns results)
    as Hrun.
  { apply run_batch_nonneg; [done| |done]. unfold resolve_batch_concurrency.
    destruct (decide (requested > 0)); [lia|].
    rewrite usage_info_max_concurrency. lia. }
  split_and!.
  - done.
  - unfold batch_branch.
    cbn [cli obj_api_key obj_concurrency obj_batch_output_dir obj_verbose].
    rewrite Hreq, Hread. cbn [lift and_then].
    rewrite Husage. cbn [lift and_then]. rewrite Hvalid. cbn [lift and_then].
    rewrite Hrun. cbn [lift and_then].
    unfold write_batch_output_to_dir. rewrite flag_or_default.
    destruct (makedirs _ w) as [w1|e]; [|done]. simpl.
    by destruct (write_all _ _ _ _ w1) as [w2|e].
  - unfold results. by rewrite length_imap.
  - intros k inp Hk. exists (expected_result (guarded call) k inp).
    split; [unfold results; by rewrite list_lookup_imap, Hk|].
    split_and!; [done..|]. simpl.
    pose proof (guarded_reply call inp) as Hg.
    destruct (call inp) as [data hdrs code|e]; [done|]. by rewrite Hg.
Qed.

End BatchBranch.

(** ** What the loader hands on *)

Section LoaderResult.
Import Os Batch Text.

Variable resolve : pystr → path.

Lemma lines_from_Forall (P : N → Prop) cur s :
  Forall P cur → Forall P s → Forall (Forall P) (lines_from cur s).
Proof.
  revert cur. induction s as [|c s IH]; intros cur Hcur Hs; simpl.
  - destruct cur; [constructor|]. constructor; [done|constructor].
  - inversion Hs as [|? ? Hc Hrest]; subst.
    assert (Forall P (cur ++ [c])) as Hcur'.
    { apply Forall_app. split; [done|]. by repeat constructor. }
    destruct (c =? 10)%N.
    + constructor; [done|]. apply IH; [constructor|done].
    + by apply IH.
Qed.

Lemma translate_newlines_no_cr text :
  Forall (λ c, c ≠ 13%N) (translate_newlines text).
Proof.
  remember (length text) as n eqn:Hn.
  assert (length text ≤ n)%nat as Hlen by lia. clear Hn.
  revert text Hlen. induction n as [|n IH]; intros text Hlen.
  - destruct text; [constructor|simpl in Hlen; lia].
  - destruct text as [|c rest]; [constructor|]. simpl in Hlen.
    cbn [translate_newlines]. destruct (c =? 13)%N eqn:Hc.
    + destruct rest as [|c2 rest']; [by repeat constructor|].
      destruct (c2 =? 10)%N; constructor; try done.
      * apply IH. simpl in Hlen. lia.
      * apply IH. lia.
    + apply N.eqb_neq in Hc. constructor; [done|]. apply IH. lia.
Qed.

(** A line of the file has no [\n] but at its end. *)
Lemma lines_from_shape cur s :
  10%N ∉ cur →
  Forall (λ line, ∃ b, (10%N ∉ b) ∧ (line = b ∨ line = b ++ [10%N]))
         (lines_from cur s).
Proof.
  revert cur. induction s as [|c s IH]; intros cur Hcur; simpl.
  - destruct cur as [|c0 cur]; [constructor|].
    constructor; [|constructor]. exists (c0 :: cur). split; [done|by left].
  - destruct (c =? 10)%N eqn:Hc.
    + apply N.eqb_eq in Hc as ->. constructor.
      * exists cur. split; [done|by right].
      * apply IH. by intros ?%elem_of_nil.
    + apply N.eqb_neq in Hc. apply IH.
      rewrite elem_of_app, list_elem_of_singleton. intros [?|?]; [done|].
      by apply Hc.
Qed.

Lemma trimmed_no_newline line t b :
  trimmed line t → 10%N ∉ b → line = b ∨ line = b ++ [10%N] → 10%N ∉ t.
Proof.
  intros (pre & post & Hline & _ & _ & _ & Hlast) Hb Hshape Ht.
  destruct Hshape as [->| ->].
  - apply Hb. rewrite Hline, !elem_of_app. right. by left.
  - destruct post as [|x post _] using rev_ind.
    + rewrite app_nil_r in Hline.
      destruct t as [|y t _] using rev_ind; [by apply elem_of_nil in Ht|].
      rewrite app_assoc in Hline. apply app_inj_tail in Hline as [_ <-].
      specialize (Hlast 10%N). rewrite last_snoc in Hlast. by specialize (Hlast eq_refl).
    + rewrite !app_assoc in Hline. apply app_inj_tail in Hline as [-> _].
      apply Hb. rewrite !elem_of_app. left. by right.
Qed.

Lemma strip_fixed t :
  (∀ c, head t = Some c → isspace c = false) →
  (∀ c, last t = Some c → isspace c = false) →
  strip t = t.
Proof.
  intros Hhead Hlast. unfold strip, rstrip.
  assert (∀ s, (∀ c, head s = Some c → isspace c = false) → lstrip s = s)
    as Hfix.
  { intros [|c s] Hs; [done|]. simpl. by rewrite (Hs c). }
  rewrite (Hfix t Hhead), Hfix; [by rewrite reverse_involutive|].
  intros c. rewrite head_reverse. apply Hlast.
Qed.

(** X9.  The list [read_input_file] returns is not empty, and each of its
    lines is not empty, begins and ends with a character that is not
    whitespace, holds no line feed and no carriage return, and is left as it
    is by [strip]; so the loader applied to these lines keeps all of them
    unchanged. *)
Theorem read_input_file_clean :
  ∀ (path : pystr) (w : world) (lines : list pystr),
    read_input_file resolve path w = Returns lines →
    lines ≠ []
    ∧ Forall (λ l, l ≠ []
                   ∧ (∀ c, head l = Some c → isspace c = false)
                   ∧ (∀ c, last l = Some c → isspace c = false)
                   ∧ (10%N ∉ l) ∧ (13%N ∉ l)
                   ∧ strip l = l) lines
    ∧ stripped_lines lines = lines.
Proof.
  intros path w lines Hread.
  assert (Forall (λ l, l ≠ []
                   ∧ (∀ c, head l = Some c → isspace c = false)
                   ∧ (∀ c, last l = Some c → isspace c = false)
                   ∧ (10%N ∉ l) ∧ (13%N ∉ l)
                   ∧ strip l = l) lines) as Hall.
  { unfold read_input_file in Hread.
    destruct (read_text (resolve path) w) as [text|e]; [|done]. simpl in Hread.
    assert (lines = stripped_lines (file_lines text)) as ->.
    { by destruct (stripped_lines (file_lines text)); simplify_eq. }
    rewrite stripped_lines_kept. apply Forall_forall. intros l Hl.
    apply list_elem_of_filter in Hl as [Hne Hl].
    apply list_elem_of_fmap in Hl as (line & -> & Hline).
    pose proof (strip_trimmed line) as Htrim.
    assert (Forall (λ c, c ≠ 13%N) line) as Hcr.
    { assert (Forall (Forall (λ c, c ≠ 13%N)) (file_lines text)) as Hlines.
      { apply lines_from_Forall; [constructor|apply translate_newlines_no_cr]. }
      rewrite Forall_forall in Hlines. by apply Hlines. }
    assert (∃ b, (10%N ∉ b) ∧ (line = b ∨ line = b ++ [10%N])) as (b & Hb & Hshape).
    { pose proof (lines_from_shape [] (translate_newlines text)) as Hlines.
      rewrite Forall_forall in Hlines. apply Hlines; [|done].
      by intros ?%elem_of_nil. }
    pose proof (trimmed_no_newline _ _ _ Htrim Hb Hshape) as Hnl.
    destruct Htrim as (pre & post & Heq & _ & _ & Hhead & Hlast).
    split_and!; [done..| |by apply strip_fixed].
    intros Hin. rewrite Forall_forall in Hcr. apply (Hcr 13%N); [|done].
    rewrite Heq, !elem_of_app. right. by left. }
  split_and!; [by apply read_input_file_nonempty in Hread|done|].
  clear Hread. induction Hall as [|l ls (Hne & _ & _ & _ & _ & Hfix) _ IH]; [done|].
  cbn [stripped_lines]. rewrite Hfix, IH. by destruct l.
Qed.

End LoaderResult.

(** ** When the usage parser raises on an object *)

Section UsageErrors.
Import Batch Json Client.

Lemma credits_test_int_of v :
  credits_test v = true →
  (raises (int_of v) ↔ v = Float (S754_infinity false))
  ∧ (∀ e, int_of v = Raises e → e = OverflowError).
Proof.
  unfold raises.
  destruct v as [|b|z|f|s|l|m]; try done; simpl.
  1,2: intros _; split; [split; [by intros [e ?]|done]|done].
  destruct f as [s|s| |s m e]; simpl.
  - intros _. split; [split; [by intros [e' ?]|done]|done].
  - destruct s; [done|]. intros _. split; [|by intros e [= <-]].
    split; [done|]. intros _. by eexists.
  - done.
  - intros _. split; [split; [by intros [e' ?]|done]|done].
Qed.

Lemma isinstance_int_of v :
  isinstance_int_float v = true →
  (raises (int_of v) ↔ finite v = false)
  ∧ (∀ e, int_of v = Raises e →
       e = OverflowError
       ∨ e = ValueError (str "cannot convert float NaN to integer")).
Proof.
  unfold raises.
  destruct v as [|b|z|f|s|l|m]; try done; simpl.
  1,2: intros _; split; [split; [by intros [e ?]|done]|done].
  destruct f as [s|s| |s m e]; simpl; intros _.
  - split; [split; [by intros [e' ?]|done]|done].
  - split; [|intros e [= <-]; by left]. split; [done|]. intros _. by eexists.
  - split; [|intros e [= <-]; by right]. split; [done|]. intros _. by eexists.
  - split; [split; [by intros [e' ?]|done]|done].
Qed.

(** X10.  On a body that decodes to an object, [parse_usage] raises exactly
    when the first credit alias that passes its test holds infinity, or no
    alias passes, [max_api_credit] and [used_api_credit] both hold an
    [int], [float] or [bool], and one of them is an infinity or a NaN.  What
    it raises is the [OverflowError] or the [ValueError] of [int()]; the
    concurrency aliases never make it raise. *)
Theorem parse_usage_object_raises :
  ∀ (json_loads : bytes → result value) (body : bytes) (d : gmap (list N) value),
    json_loads body = Returns (Obj d) →
    let credit := first_present credits_test credit_keys d in
    let a := present d "max_api_credit" in
    let b := present d "used_api_credit" in
    (raises (parse_usage json_loads body)
     ↔ credit = Some (Float (S754_infinity false))
       ∨ (credit = None
          ∧ isinstance_int_float a = true ∧ isinstance_int_float b = true
          ∧ (finite a = false ∨ finite b = false)))
    ∧ (∀ e, parse_usage json_loads body = Raises e →
         e = OverflowError
         ∨ e = ValueError (str "cannot convert float NaN to integer")).
Proof.
  intros json_loads body d Hload credit a b.
  rewrite (parse_usage_object _ _ d Hload), concurrency_loop_first.
  assert (∃ out,
            match first_present concurrency_test concurrency_keys d with
            | Some v => let* n := int_of v in
                        Returns (<[str "max_concurrency" := n]> (usage_info 5 0))
            | None => Returns (usage_info 5 0)
            end = Returns out) as [out ->].
  { destruct (first_present concurrency_test concurrency_keys d) as [v|] eqn:Hfirst;
      [|by eexists].
    apply first_present_Some in Hfirst as (_ & _ & _ & Htest).
    apply concurrency_test_bounds in Htest as (n & -> & _). by eexists. }
  cbn [bind]. rewrite credits_loop_first. fold credit.
  destruct credit as [v|] eqn:Hcredit.
  - apply first_present_Some in Hcredit as (_ & _ & _ & Htest).
    destruct (credits_test_int_of v Htest) as [Hiff Hcls].
    destruct (int_of v) as [n|e'] eqn:Hint; simpl.
    + split; [|done]. split; [by intros [e ?]|].
      intros [[= ->]|[? _]]; [|done].
      destruct (proj2 Hiff eq_refl) as [e ?]. done.
    + split.
      * split; [|intros _; by eexists].
        intros _. left. f_equal. apply Hiff. by eexists.
      * intros e [= <-]. left. by apply Hcls.
  - cbn [bind]. unfold credits_fallback. cbn [get bind].
    fold (present d "max_api_credit") (present d "used_api_credit"). fold a b.
    destruct (isinstance_int_float a) eqn:Ha; simpl.
    2:{ split; [|done]. split; [by intros [e ?]|].
        intros [?|(_ & ? & _)]; done. }
    destruct (isinstance_int_float b) eqn:Hb; simpl.
    2:{ split; [|done]. split; [by intros [e ?]|].
        intros [?|(_ & _ & ? & _)]; done. }
    destruct (isinstance_int_of a Ha) as [Hiffa Hclsa].
    destruct (isinstance_int_of b Hb) as [Hiffb Hclsb].
    destruct (int_of a) as [x|ea] eqn:Hinta; simpl.
    + destruct (int_of b) as [y|eb] eqn:Hintb; simpl.
      * assert (finite a ≠ false) as Hfa.
        { intros [e ?]%Hiffa. done. }
        assert (finite b ≠ false) as Hfb.
        { intros [e ?]%Hiffb. done. }
        split.
        -- split.
           ++ intros [e He]. by destruct (decide (0 ≤ x - y)).
           ++ intros [?|(_ & _ & _ & [?|?])]; done.
        -- intros e. by destruct (decide (0 ≤ x - y)).
      * split.
        -- split; [|intros _; by eexists].
           intros _. right. split_and!; [done..|]. right. apply Hiffb. by eexists.
        -- intros e [= <-]. by apply Hclsb.
    + split.
      * split; [|intros _; by eexists].
        intros _. right. split_and!; [done..|]. left. apply Hiffa. by eexists.
      * intros e [= <-]. by apply Hclsa.
Qed.

End UsageErrors.

(** ** The address and the parameters of a request *)

Section ClientRequests.
Import Http.

Lemma lstrip_slash_spec s :
  ∃ pre, s = pre ++ lstrip_slash s
         ∧ Forall (λ c, c = 47%N) pre
         ∧ head (lstrip_slash s) ≠ Some 47%N.
Proof.
  induction s as [|c s (pre & Hs & Hpre & Hhead)]; simpl.
  - exists []. split_and!; [done|constructor|done].
  - destruct (c =? 47)%N eqn:Hc.
    + apply N.eqb_eq in Hc as ->.
      exists (47%N :: pre). split_and!; [by rewrite Hs at 1|by constructor|done].
    + apply N.eqb_neq in Hc. exists []. split_and!; [done|constructor|].
      simpl. by intros [= ?].
Qed.

Lemma lstrip_slash_fixed s : head s ≠ Some 47%N → lstrip_slash s = s.
Proof.
  destruct s as [|c s]; [done|]. simpl. intros Hc.
  destruct (c =? 47)%N eqn:Heq; [|done]. apply N.eqb_eq in Heq as ->. done.
Qed.

(** X11.  The base address a client keeps is the one it was given without
    the slashes at its end: what was cut is slashes only, what is kept does
    not end with one, and a client built from the kept address is the same
    client.  The default address [BASE_URL] is kept as it is. *)
Theorem new_client_base_url :
  ∀ (key base : pystr) (t : Z),
    let c := new_client key base t in
    (∃ slashes, base = base_url c ++ slashes ∧ Forall (λ ch, ch = 47%N) slashes)
    ∧ last (base_url c) ≠ Some 47%N
    ∧ new_client key (base_url c) t = c
    ∧ base_url (new_client key (str Config.BASE_URL) t) = str Config.BASE_URL.
Proof.
  intros key base t c. subst c. unfold new_client. simpl. unfold rstrip_slash.
  destruct (lstrip_slash_spec (reverse base)) as (pre & Hbase & Hpre & Hhead).
  assert (last (reverse (lstrip_slash (reverse base))) ≠ Some 47%N) as Hlast.
  { by rewrite last_reverse. }
  split_and!.
  - exists (reverse pre). split; [|by apply Forall_reverse].
    rewrite <- reverse_app, <- Hbase. by rewrite reverse_involutive.
  - done.
  - f_equal. rewrite reverse_involutive.
    by rewrite (lstrip_slash_fixed _ Hhead).
  - reflexivity.
Qed.

(** X12.  The request of [fast_search]: it goes to the base address followed
    by [/fast_search], with the time limit of the client, and carries the key
    of the client under [api_key], the search text unless it is empty, the
    page only when one is given and is not 0, the country code and the
    language only when given and not empty, and nothing else. *)
Theorem fast_search_request :
  ∀ (session_get : pystr → gmap (list N) param → Z → reply) (c : Client)
    (search : pystr) (page : option Z) (country_code language : option pystr),
    ∃ sent,
      fast_search session_get c search page country_code language
      = session_get (base_url c ++ str "/fast_search") sent (timeout c)
      ∧ sent !! str "api_key" = Some (PStr (api_key c))
      ∧ sent !! str "search"
        = match search with [] => None | _ => Some (PStr search) end
      ∧ sent !! str "page"
        = match page with
          | Some z => if decide (z = 0) then None else Some (PInt z)
          | None => None
          end
      ∧ sent !! str "country_code"
        = match country_code with
          | Some (x :: s) => Some (PStr (x :: s))
          | _ => None
          end
      ∧ sent !! str "language"
        = match language with
          | Some (x :: s) => Some (PStr (x :: s))
          | _ => None
          end
      ∧ ∀ k, k ∉ [str "api_key"; str "search"; str "page"; str "country_code";
                   str "language"] → sent !! k = None.
Proof.
  intros session_get c search page country_code language.
  eexists. split; [reflexivity|]. unfold request_params.
  assert (∀ a b : string, String.eqb a b = false → str a ≠ str b) as Hne.
  { intros a b Hab Heq%str_inj. subst b. by rewrite String.eqb_refl in Hab. }
  split_and!.
  - rewrite lookup_setdefault, decide_True by done.
    rewrite lookup_filter_sendable.
    by rewrite !lookup_insert_ne, lookup_empty by (by apply Hne).
  - rewrite lookup_setdefault, decide_False by (by apply Hne).
    rewrite lookup_filter_sendable.
    rewrite !lookup_insert_ne, lookup_insert_eq by (by apply Hne).
    by destruct search.
  - rewrite lookup_setdefault, decide_False by (by apply Hne).
    rewrite lookup_filter_sendable.
    rewrite !lookup_insert_ne, lookup_insert_eq by (by apply Hne).
    destruct page as [z|]; simpl; [|done]. by destruct (decide (z = 0)).
  - rewrite lookup_setdefault, decide_False by (by apply Hne).
    rewrite lookup_filter_sendable.
    rewrite !lookup_insert_ne, lookup_insert_eq by (by apply Hne).
    by destruct country_code as [[|x s]|].
  - rewrite lookup_setdefault, decide_False by (by apply Hne).
    rewrite lookup_filter_sendable. rewrite lookup_insert_eq.
    by destruct language as [[|x s]|].
  - intros k Hk. rewrite !not_elem_of_cons in Hk.
    destruct Hk as (H1 & H2 & H3 & H4 & H5 & _).
    rewrite lookup_setdefault, decide_False by done.
    rewrite lookup_filter_sendable.
    by rewrite !lookup_insert_ne, lookup_empty by done.
Qed.

End ClientRequests.

(** ** Further instances *)



(** Writing the results next to the input file leaves that file alone. *)
Lemma write_batch_output_to_dir_frame_witness :
  ∃ w',
    Batch.write_batch_output_to_dir sample_resolve sample_repr
      (str "20260101_000000") sample_results (Some (str "out")) false
      sample_input_world = Returns ([str "home"; str "out"], w')
    ∧ Os.fs w' !! [str "home"; str "inputs.txt"]
      = Os.fs sample_input_world !! [str "home"; str "inputs.txt"]
    ∧ Os.fs w' !! [str "home"] = Some Os.Dir.
Proof.
  assert (∃ w',
            Batch.write_batch_output_to_dir sample_resolve sample_repr
              (str "20260101_000000") sample_results (Some (str "out")) false
              sample_input_world = Returns ([str "home"; str "out"], w'))
    as [w' Hrun].
  { vm_compute. eexists. reflexivity. }
  exists w'. split; [exact Hrun|].
  destruct (write_batch_output_to_dir_frame sample_resolve sample_repr _ _ _ _
              _ _ _ Hrun) as (_ & Hsame & Hdirs & _).
  split.
  - apply Hsame.
    + intros [k Hk]. vm_compute in Hk. discriminate.
    + intros r _ [[_ Hp]|(_ & _ & Hp)]; vm_compute in Hp; discriminate.
  - apply Hdirs; [discriminate|]. by exists [str "out"].
Defined.


(** The batch branch on the input file of the loader example, with a key in
    the environment and a usage answer that allows the run. *)
Lemma batch_branch_after_preflight_witness :
  Batch.run_batch [1; 0]%nat [str "a"; str "b"] 5 (Cli.guarded sample_call)
  = Returns (imap (Batch.expected_result (Cli.guarded sample_call))
               [str "a"; str "b"])
  ∧ ∃ w',
      Cli.batch_branch sample_environ sample_session_get Json.loads
        sample_resolve sample_repr [1; 0]%nat (str "20260101_000000")
        (Cli.cli None None false (Some (str "out")) 0) (str "inputs.txt")
        sample_call sample_input_world
      = Cli.Fine (str "Batch complete. Output written to /home/out", w').
Proof.
  destruct (batch_branch_after_preflight sample_environ sample_session_get
              Json.loads sample_resolve sample_repr [1; 0]%nat
              (str "20260101_000000") None None false (Some (str "out")) 0
              (str "inputs.txt") sample_call sample_input_world
              [str "a"; str "b"] (Batch.usage_info 5 100))
    as (Hrun & Hbranch & _).
  - vm_compute. reflexivity.
  - vm_compute. reflexivity.
  - vm_compute. reflexivity.
  - unfold Batch.schedule. simpl. apply perm_swap.
  - split; [exact Hrun|]. rewrite Hbranch. vm_compute. eexists. reflexivity.
Defined.

(** The lines of the loader example are clean. *)
Lemma read_input_file_clean_witness :
  Batch.stripped_lines [str "a"; str "b"] = [str "a"; str "b"].
Proof.
  apply (read_input_file_clean sample_resolve (str "inputs.txt")
           sample_input_world [str "a"; str "b"]).
  vm_compute. reflexivity.
Defined.

(** Credits of [1e999], which the decoder reads as infinity. *)
Lemma parse_usage_object_raises_witness :
  Client.parse_usage Json.loads (json_text "{'credits': 1e999}")
  = Raises OverflowError.
Proof.
  destruct (parse_usage_object_raises Json.loads
              (json_text "{'credits': 1e999}")
              {[ str "credits" := Json.Float (S754_infinity false) ]})
    as [Hiff Hclass].
  - vm_compute. reflexivity.
  - destruct (proj2 Hiff) as [e He].
    + left. vm_compute. reflexivity.
    + rewrite He. destruct (Hclass e He) as [->| ->]; [reflexivity|].
      vm_compute in He. discriminate.
Defined.

(** The failed item of the writer example adds its one line. *)
Lemma write_batch_output_to_dir_stderr_witness :
  ∃ w',
    Batch.write_batch_output_to_dir sample_resolve sample_repr
      (str "20260101_000000") sample_results (Some (str "out")) false
      empty_world = Returns ([str "home"; str "out"], w')
    ∧ Os.stderr w' = [str "Item 2 ('b'): boom"].
Proof.
  assert (∃ w',
            Batch.write_batch_output_to_dir sample_resolve sample_repr
              (str "20260101_000000") sample_results (Some (str "out")) false
              empty_world = Returns ([str "home"; str "out"], w'))
    as [w' Hrun].
  { vm_compute. eexists. reflexivity. }
  exists w'. split; [exact Hrun|].
  destruct (write_batch_output_to_dir_stderr sample_resolve sample_repr _ _ _ _
              _ _ _ Hrun) as (Hlines & _).
  rewrite Hlines. reflexivity.
Defined.
